(** * starlette/routing.py: a shallow embedding of the request router

    The development follows the module top to bottom: Python string and
    dict helpers, regular expressions as the router uses them, the
    convertors, [compile_path], the route classes ([Route],
    [WebSocketRoute], [Mount], [Host], [Lifespan]), and [Router].
    Theorems come after the definitions.

    Two things the module imports are not part of it: the [re] library
    and the registry of convertors.  Regular expressions made of ordinary
    characters, [.], a character followed by one of [*], [+], [?], and the
    groups of the string, path and integer convertors are interpreted
    here; every other regular expression, and every other convertor, is
    left to a parameter of the development (class [Externals]) about
    which nothing is assumed. *)

From Stdlib Require Import Strings.String Strings.Ascii Lists.List.
From Stdlib Require Import Bool.Bool Arith.Arith ZArith.ZArith Lia.
From Stdlib Require Import Numbers.DecimalString.
Import ListNotations.
Open Scope list_scope.
Open Scope string_scope.

(* ================================================================= *)
(** ** Exceptions and results *)

(** The exceptions the module raises or lets through.  [re_error] is what
    [re.compile] raises; [TypeError], [ValueError] and [AttributeError]
    are the interpreter's own (a keyword argument given twice, a text that
    is no number, a method a value does not have). *)
Inductive exn : Type :=
| NoMatchFound
| AssertionError
| NotImplementedError
| KeyError
| TypeError
| ValueError
| AttributeError
| HTTPException (status_code : nat)
| re_error
| HandlerError (detail : string).

Inductive result (A : Type) : Type :=
| Ok (a : A)
| Raise (e : exn).
Arguments Ok {A} a.
Arguments Raise {A} e.

Definition bind {A B} (m : result A) (f : A -> result B) : result B :=
  match m with
  | Ok a => f a
  | Raise e => Raise e
  end.

Notation "x <- m ;; k" := (bind m (fun x => k))
  (at level 61, m at next level, right associativity).
Notation "'assert!' b ;; k" := (if b then k else Raise AssertionError)
  (at level 61, b at next level, right associativity).

(* ================================================================= *)
(** ** Python [str] methods used by the module *)

Module Str.

Definition slash : ascii := "/"%char.
Definition newline : ascii := "010"%char.

(** [s[n:]] *)
Fixpoint drop (n : nat) (s : string) : string :=
  match n, s with
  | S k, String _ s' => drop k s'
  | _, _ => s
  end.

(** [s[:n]] *)
Fixpoint take (n : nat) (s : string) : string :=
  match n, s with
  | S k, String c s' => String c (take k s')
  | _, _ => ""
  end.

(** [s[:-k]] for [k >= 1]: everything but the last [k] characters, and
    the empty string when [s] has at most [k] characters. *)
Definition drop_last (k : nat) (s : string) : string :=
  take (String.length s - k) s.

Definition startswith (s p : string) : bool := String.prefix p s.

(** [s.endswith(c)] for a one-character suffix. *)
Fixpoint endswith (s : string) (c : ascii) : bool :=
  match s with
  | "" => false
  | String a "" => Ascii.eqb a c
  | String _ s' => endswith s' c
  end.

(** [s.rstrip(c)]: all trailing occurrences of [c] removed. *)
Fixpoint rstrip (s : string) (c : ascii) : string :=
  match s with
  | "" => ""
  | String a s' =>
      match rstrip s' c with
      | "" => if Ascii.eqb a c then "" else String a ""
      | r => String a r
      end
  end.

(** [s.lstrip(c)] *)
Fixpoint lstrip (s : string) (c : ascii) : string :=
  match s with
  | "" => ""
  | String a s' => if Ascii.eqb a c then lstrip s' c else s
  end.

(** [s.split(c)[0]] *)
Fixpoint split_head (s : string) (c : ascii) : string :=
  match s with
  | "" => ""
  | String a s' => if Ascii.eqb a c then "" else String a (split_head s' c)
  end.

Definition upper_char (c : ascii) : ascii :=
  let n := nat_of_ascii c in
  if ((97 <=? n) && (n <=? 122))%nat then ascii_of_nat (n - 32) else c.

Fixpoint upper (s : string) : string :=
  match s with
  | "" => ""
  | String c s' => String (upper_char c) (upper s')
  end.

(** [old in s] *)
Fixpoint contains (old s : string) : bool :=
  String.prefix old s ||
  match s with
  | "" => false
  | String _ s' => contains old s'
  end.

(** [s.replace(old, new)] for a non-empty [old]: occurrences are taken
    left to right and do not overlap.  [skip] counts the characters of
    an occurrence that are still to be passed over. *)
Fixpoint replace_aux (old new : string) (skip : nat) (s : string) : string :=
  match s with
  | "" => ""
  | String c s' =>
      match skip with
      | S k => replace_aux old new k s'
      | O =>
          if String.prefix old s
          then new ++ replace_aux old new (String.length old - 1) s'
          else String c (replace_aux old new 0 s')
      end
  end.

Definition replace (s old new : string) : string := replace_aux old new 0 s.

Fixpoint mem (c : ascii) (s : string) : bool :=
  match s with
  | "" => false
  | String a s' => Ascii.eqb a c || mem c s'
  end.

End Str.

(* ================================================================= *)
(** ** Python [dict] with string keys

    Insertion order is observable ([replace_params] iterates over
    [items()]), so a dict is an association list in insertion order with
    at most one entry per key. *)

Module Dict.

Definition t (V : Type) : Type := list (string * V).

Section Ops.
Context {V : Type}.

Fixpoint get (k : string) (d : t V) : option V :=
  match d with
  | [] => None
  | (k', v) :: d' => if String.eqb k' k then Some v else get k d'
  end.

Definition mem (k : string) (d : t V) : bool :=
  match get k d with Some _ => true | None => false end.

(** [d[k] = v]: an existing key keeps its position. *)
Fixpoint set (k : string) (v : V) (d : t V) : t V :=
  match d with
  | [] => [(k, v)]
  | (k', v') :: d' =>
      if String.eqb k' k then (k', v) :: d' else (k', v') :: set k v d'
  end.

(** [d.pop(k)] (the dict that is left) *)
Fixpoint pop (k : string) (d : t V) : t V :=
  match d with
  | [] => []
  | (k', v') :: d' =>
      if String.eqb k' k then pop k d' else (k', v') :: pop k d'
  end.

(** [d.update(e)] *)
Definition update (d e : t V) : t V :=
  fold_left (fun acc kv => set (fst kv) (snd kv) acc) e d.

Definition keys (d : t V) : list string := map fst d.

End Ops.

Definition map_values {V W : Type} (f : string -> V -> W) (d : t V) : t W :=
  map (fun kv => (fst kv, f (fst kv) (snd kv))) d.

End Dict.

(** [set(a) == set(b)] on lists of keys. *)
Definition subset (a b : list string) : bool :=
  forallb (fun x => existsb (String.eqb x) b) a.
Definition set_eqb (a b : list string) : bool := subset a b && subset b a.

(* ================================================================= *)
(** ** Regular expressions as compiled paths use them

    [compile_path] writes the regular expression [^], the literal text of
    the template interleaved with one named group per placeholder, whose
    body is the convertor's fragment, and [$].  Python's matcher is a
    backtracking one with greedy repetition; the functions below explore
    the alternatives in the same order and return the first success.

    The text is read here when it is made of ordinary characters, [.],
    ordinary characters or [.] followed by one of [*], [+], [?], and
    groups whose body is one of the fragments [[^/]+], [.*], [[0-9]+].
    Any other text is handed, as Python would read it, to the function
    the caller supplies for [re.compile]. *)

Module Re.

(** Single-character matchers. *)
Inductive cset : Type :=
| CChar (c : ascii)        (* an ordinary character *)
| CDot                     (* [.]: anything but a newline *)
| CNot (c : ascii)         (* [[^c]] *)
| CRange (lo hi : ascii).  (* [[lo-hi]] *)

Definition cset_mem (cs : cset) (a : ascii) : bool :=
  match cs with
  | CChar c => Ascii.eqb a c
  | CDot => negb (Ascii.eqb a Str.newline)
  | CNot c => negb (Ascii.eqb a c)
  | CRange lo hi =>
      ((nat_of_ascii lo <=? nat_of_ascii a)
       && (nat_of_ascii a <=? nat_of_ascii hi))%nat
  end.

Inductive atom : Type :=
| AOne (cs : cset)
| AStar (cs : cset)     (* [cs*], greedy *)
| APlus (cs : cset)     (* [cs+], greedy *)
| AOpt (cs : cset).     (* [cs?], greedy *)

Inductive piece : Type :=
| PLit (cs : cset)
| PQuant (a : atom)                            (* a repeated character *)
| PGroup (name : string) (body : list atom).   (* [(?P<name>body)] *)

(** What stands between [^] and [$]. *)
Definition pieces : Type := list piece.

Section Matcher.
Context {R : Type}.

(** Greedy repetition: take one more character if possible and only
    then try the continuation at the current position. *)
Fixpoint star (cs : cset) (k : string -> option R) (s : string) : option R :=
  match s with
  | String c s' =>
      if cset_mem cs c
      then match star cs k s' with
           | Some r => Some r
           | None => k s
           end
      else k s
  | "" => k ""
  end.

Definition one (cs : cset) (k : string -> option R) (s : string) : option R :=
  match s with
  | String c s' => if cset_mem cs c then k s' else None
  | "" => None
  end.

(** Greedy option: with the character first, then without. *)
Definition opt (cs : cset) (k : string -> option R) (s : string) : option R :=
  match s with
  | String c s' =>
      if cset_mem cs c
      then match k s' with
           | Some r => Some r
           | None => k s
           end
      else k s
  | "" => k ""
  end.

Fixpoint match_atoms (l : list atom) (k : string -> option R) (s : string)
  : option R :=
  match l with
  | [] => k s
  | AOne cs :: l' => one cs (match_atoms l' k) s
  | AStar cs :: l' => star cs (match_atoms l' k) s
  | APlus cs :: l' => one cs (star cs (match_atoms l' k)) s
  | AOpt cs :: l' => opt cs (match_atoms l' k) s
  end.

(** The text of [s] that was consumed when [rest] is what is left. *)
Definition consumed (s rest : string) : string :=
  Str.take (String.length s - String.length rest) s.

Fixpoint match_pieces (p : pieces) (k : Dict.t string -> string -> option R)
  (g : Dict.t string) (s : string) : option R :=
  match p with
  | [] => k g s
  | PLit cs :: p' => one cs (match_pieces p' k g) s
  | PQuant a :: p' => match_atoms [a] (match_pieces p' k g) s
  | PGroup name body :: p' =>
      match_atoms body
        (fun rest => match_pieces p' k (g ++ [(name, consumed s rest)])%list rest)
        s
  end.
End Matcher.

(** [$] without [re.MULTILINE]: the end of the string, or just before a
    newline that ends the string. *)
Definition at_end (s : string) : bool :=
  match s with
  | "" => true
  | String c "" => Ascii.eqb c Str.newline
  | _ => false
  end.

(** The groups of a match of [^], the pieces, [$]: the captured text per
    group, in group order. *)
Definition match_pieces_anchored (p : pieces) (s : string)
  : option (Dict.t string) :=
  match_pieces p (fun g rest => if at_end rest then Some g else None) [] s.

(** What [groupdict()] gives: for each named group the text it captured,
    or [None] when the group took no part in the match. *)
Definition groupdict : Type := Dict.t (option string).

(** A compiled pattern: one read here, or one compiled by the library,
    known by what its [match] answers. *)
Inductive pattern : Type :=
| Frag (p : pieces)
| Foreign (run : string -> option groupdict).

(** [pattern.match(s)] followed by [.groupdict()]: [None] when there is
    no match.  Every group of a pattern read here takes part in a
    match. *)
Definition match_ (p : pattern) (s : string) : option groupdict :=
  match p with
  | Frag p =>
      match match_pieces_anchored p s with
      | Some g => Some (map (fun kv => (fst kv, Some (snd kv))) g)
      | None => None
      end
  | Foreign run => run s
  end.

(** The regular expression as [compile_path] writes it: characters
    copied from the template and groups around the convertors'
    fragments. *)
Inductive src : Type :=
| SChar (c : ascii)
| SGroup (name : string) (body : string).

(** Characters with a syntactic role in [re] other than [.]. *)
Definition special (c : ascii) : bool := Str.mem c "\^$*+?{}[]()|".

Definition is_quantifier (c : ascii) : bool := Str.mem c "*+?".

Fixpoint group_names (l : list src) : list string :=
  match l with
  | [] => []
  | SChar _ :: l' => group_names l'
  | SGroup n _ :: l' => n :: group_names l'
  end.

Fixpoint has_dup (l : list string) : bool :=
  match l with
  | [] => false
  | x :: l' => existsb (String.eqb x) l' || has_dup l'
  end.

(** The fragments read here: those of the string, the path and the
    integer convertor. *)
Definition parse_body (body : string) : option (list atom) :=
  if body =? "[^/]+" then Some [APlus (CNot "/")]
  else if body =? ".*" then Some [AStar CDot]
  else if body =? "[0-9]+" then Some [APlus (CRange "0" "9")]
  else None.

Definition char_class (c : ascii) : cset :=
  if Ascii.eqb c "."%char then CDot else CChar c.

Definition quantified (q : ascii) (cs : cset) : atom :=
  if Ascii.eqb q "*" then AStar cs
  else if Ascii.eqb q "+" then APlus cs
  else AOpt cs.

(** Reading the text: an ordinary character or [.] stands for itself,
    and for a repetition when one of [*], [+], [?] follows it.  [None] for
    a text with any other use of a special character (a second
    repetition sign, as in [a+?], included) or with a group whose body is
    not read here. *)
Fixpoint parse (l : list src) : option pieces :=
  match l with
  | [] => Some []
  | SGroup n body :: l' =>
      match parse_body body, parse l' with
      | Some b, Some p => Some (PGroup n b :: p)
      | _, _ => None
      end
  | SChar c :: l' =>
      if special c then None
      else
        match l' with
        | SChar q :: l'' =>
            if is_quantifier q
            then match parse l'' with
                 | Some p => Some (PQuant (quantified q (char_class c)) :: p)
                 | None => None
                 end
            else match parse l' with
                 | Some p => Some (PLit (char_class c) :: p)
                 | None => None
                 end
        | _ =>
            match parse l' with
            | Some p => Some (PLit (char_class c) :: p)
            | None => None
            end
        end
  end.

Definition render_src (x : src) : string :=
  match x with
  | SChar c => String c ""
  | SGroup n body => "(?P<" ++ n ++ ">" ++ body ++ ")"
  end.

(** The text handed to [re.compile]. *)
Definition render (l : list src) : string :=
  "^" ++ fold_right (fun x acc => render_src x ++ acc) "$" l.

(** [re.compile]: a text read here compiles unless a group name is
    defined twice; any other text is compiled by [other], the library's
    [re.compile]. *)
Definition compile (other : string -> result (string -> option groupdict))
  (l : list src) : result pattern :=
  match parse l with
  | Some p =>
      if has_dup (group_names l) then Raise re_error else Ok (Frag p)
  | None =>
      run <- other (render l) ;;
      Ok (Foreign run)
  end.

End Re.
(* ================================================================= *)
(** ** Values and convertors *)

(** The Python values that path parameters hold: [None], text, an
    integer, or any other object, known by the name of its type and by
    the text [str()] gives. *)
Inductive value : Type :=
| VNone
| VStr (s : string)
| VInt (z : Z)
| VObj (type_name : string) (text : string).

(** [str(value)] *)
Definition str (v : value) : string :=
  match v with
  | VNone => "None"
  | VStr s => s
  | VInt z => NilZero.string_of_int (Z.to_int z)
  | VObj _ text => text
  end.

(** Modelled from the spec: [starlette.convertors] is not among the
    sources.  A convertor has a matching-pattern fragment, used verbatim
    inside the capture group, a decoder, which may fail on malformed
    input, and an encoder (spec 4.2).  The decoder is given what the group
    captured, [None] when the group took no part in the match; since the
    fragment must accept exactly the texts the encoder can produce, the
    encoder fails on a value whose text the fragment rejects. *)
Record Convertor : Type := {
  regex : string;
  convert : option string -> result value;
  to_string : value -> result string
}.

(** Modelled from the spec: the string convertor, the default type of a
    placeholder (spec 4.1).  Its fragment [[^/]+] is the one quoted in the
    docstring of [compile_path]; what the group captured is the value; the
    encoder takes the text of the value and refuses a text with a slash
    and the empty text, which the fragment rejects. *)
Definition StringConvertor : Convertor :=
  {| regex := "[^/]+";
     convert := fun v => Ok (match v with Some s => VStr s | None => VNone end);
     to_string := fun v =>
       let s := str v in
       assert! negb (Str.mem Str.slash s) ;;
       assert! negb (s =? "") ;;
       Ok s |}.

(** Modelled from the spec: the rest-of-path convertor accepts any
    remaining characters including [/] (spec 4.1), as a pattern [.*];
    decoder and encoder give the text of what they are given. *)
Definition PathConvertor : Convertor :=
  {| regex := ".*";
     convert := fun v =>
       Ok (VStr (match v with Some s => s | None => "None" end));
     to_string := fun v => Ok (str v) |}.

(** *** Integers, as [int()] reads them *)

Definition is_space (c : ascii) : bool :=
  let n := nat_of_ascii c in
  (((9 <=? n) && (n <=? 13)) || ((28 <=? n) && (n <=? 32))
   || (n =? 133) || (n =? 160))%nat.

Definition is_digit (c : ascii) : bool :=
  let n := nat_of_ascii c in ((48 <=? n) && (n <=? 57))%nat.

Fixpoint strip_left (s : string) : string :=
  match s with
  | String c s' => if is_space c then strip_left s' else s
  | "" => ""
  end.

(** Digits, with single underscores between them, up to trailing
    white space: the number read so far is [acc]; [after_digit] tells
    whether the character before was a digit. *)
Fixpoint digits (s : string) (acc : Z) (after_digit : bool) : option Z :=
  match s with
  | "" => if after_digit then Some acc else None
  | String c s' =>
      if is_digit c
      then digits s' (10 * acc + Z.of_nat (nat_of_ascii c - 48)) true
      else if Ascii.eqb c "_"
      then if after_digit
           then match s' with
                | String d _ => if is_digit d then digits s' acc false else None
                | "" => None
                end
           else None
      else if after_digit && (strip_left s =? "") then Some acc
      else None
  end.

(** [int(text)] in base ten: white space around, a sign, digits. *)
Definition int_of_text (s : string) : result Z :=
  let body := strip_left s in
  let r :=
    match body with
    | String c s' =>
        if Ascii.eqb c "-" then option_map Z.opp (digits s' 0 false)
        else if Ascii.eqb c "+" then digits s' 0 false
        else digits body 0 false
    | "" => None
    end in
  match r with
  | Some z => Ok z
  | None => Raise ValueError
  end.

(** [int(value)]; an object that is neither text nor an integer is
    taken not to be a number. *)
Definition int (v : value) : result Z :=
  match v with
  | VInt z => Ok z
  | VStr s => int_of_text s
  | VNone | VObj _ _ => Raise TypeError
  end.

(** Modelled from the spec: the integer convertor of the default set
    (spec 2).  Its fragment is [[0-9]+]; the decoder reads the digits as a
    number, the encoder writes a number that is not negative in base
    ten. *)
Definition IntegerConvertor : Convertor :=
  {| regex := "[0-9]+";
     convert := fun v =>
       match v with
       | Some s => z <- int_of_text s ;; Ok (VInt z)
       | None => Raise TypeError
       end;
     to_string := fun v =>
       z <- int v ;;
       assert! (0 <=? z)%Z ;;
       Ok (str (VInt z)) |}.

(* ================================================================= *)
(** ** What the module imports from outside *)

(** The registry of convertors beyond the string and the path
    convertor, and [re.compile] for the texts that are not read in
    [Re.parse]: the function answers [re.error] or what the compiled
    pattern's [match(...).groupdict()] gives for each subject.  Nothing is
    assumed of either. *)
Class Externals : Type := {
  other_convertors : Dict.t Convertor;
  re_compile : string -> result (string -> option Re.groupdict)
}.

(** Modelled from the spec: the registry of convertor types.  The
    string convertor is the default type (spec 4.1) and the path convertor
    the one a mount's [{path:path}] names; the other entries (the
    integer, float and UUID convertors of the default set, and any that
    were added) are those of [other_convertors]. *)
Definition CONVERTOR_TYPES {E : Externals} : Dict.t Convertor :=
  ("str", StringConvertor) :: ("path", PathConvertor) :: other_convertors.
(* ================================================================= *)
(** ** Module-level helpers *)

(** Python callables as the module sees them through [inspect]. *)
Inductive callable_kind : Type := KFunction | KMethod | KClass | KInstance.

Record Callable : Type := {
  kind : callable_kind;
  name__ : string;          (* [__name__] *)
  class_name__ : string     (* [__class__.__name__] *)
}.

Definition isfunction (c : Callable) : bool :=
  match kind c with KFunction => true | _ => false end.
Definition ismethod (c : Callable) : bool :=
  match kind c with KMethod => true | _ => false end.
Definition isclass (c : Callable) : bool :=
  match kind c with KClass => true | _ => false end.

Definition get_name (endpoint : Callable) : string :=
  if isfunction endpoint || isclass endpoint then name__ endpoint
  else class_name__ endpoint.

(** What [Route.app] and [WebSocketRoute.app] hold. *)
Inductive RouteApp : Type :=
| request_response (func : Callable)
| websocket_session (func : Callable)
| asgi (endpoint : Callable).

(** One step of the loop of [replace_params]. *)
Definition replace_step (param_convertors : Dict.t Convertor)
  (acc : result (string * Dict.t value)) (kv : string * value)
  : result (string * Dict.t value) :=
  st <- acc ;;
  let '(path, path_params) := st in
  let '(key, v) := kv in
  if Str.contains ("{" ++ key ++ "}") path then
    match Dict.get key param_convertors with
    | None => Raise KeyError
    | Some convertor =>
        text <- to_string convertor v ;;
        Ok (Str.replace path ("{" ++ key ++ "}") text,
            Dict.pop key path_params)
    end
  else Ok (path, path_params).

Definition replace_params (path : string) (param_convertors : Dict.t Convertor)
  (path_params : Dict.t value) : result (string * Dict.t value) :=
  fold_left (replace_step param_convertors) path_params (Ok (path, path_params)).

(** *** [PARAM_REGEX] and [finditer] *)

Definition in_range (lo hi : nat) (c : ascii) : bool :=
  let n := nat_of_ascii c in ((lo <=? n) && (n <=? hi))%nat.

(** [[a-zA-Z_]] *)
Definition ident_start (c : ascii) : bool :=
  in_range 97 122 c || in_range 65 90 c || Ascii.eqb c "_"%char.
(** [[a-zA-Z0-9_]] *)
Definition ident_char (c : ascii) : bool :=
  ident_start c || in_range 48 57 c.

(** The longest run of identifier characters at the head of [s]. *)
Fixpoint ident_run (s : string) : string :=
  match s with
  | String c s' => if ident_char c then String c (ident_run s') else ""
  | "" => ""
  end.

(** [[a-zA-Z_][a-zA-Z0-9_]*] at the head of [s]: the identifier and what
    follows it. *)
Definition identifier (s : string) : option (string * string) :=
  match s with
  | String c s' =>
      if ident_start c
      then let r := ident_run s' in
           Some (String c r, Str.drop (String.length r) s')
      else None
  | "" => None
  end.

(** A match of [PARAM_REGEX] at the head of [s]: the two groups (the
    second with its colon stripped, ["str"] when absent) and the length of
    the match. *)
Definition param_at (s : string) : option (string * string * nat) :=
  match s with
  | String c s1 =>
      if Ascii.eqb c "{" then
        match identifier s1 with
        | Some (param_name, String d s2) =>
            if Ascii.eqb d "}" then
              Some (param_name, "str", String.length param_name + 2)
            else if Ascii.eqb d ":" then
              match identifier s2 with
              | Some (convertor_type, String e _) =>
                  if Ascii.eqb e "}" then
                    Some (param_name, convertor_type,
                          String.length param_name
                          + String.length convertor_type + 3)
                  else None
              | _ => None
              end
            else None
        | _ => None
        end
      else None
  | "" => None
  end.

(** The template cut at the matches of [PARAM_REGEX]. *)
Inductive token : Type :=
| TLit (c : ascii)
| TParam (param_name convertor_type : string).

Fixpoint finditer (skip : nat) (s : string) : list token :=
  match s with
  | "" => []
  | String c s' =>
      match skip with
      | S k => finditer k s'
      | O =>
          match param_at s with
          | Some (param_name, convertor_type, len) =>
              TParam param_name convertor_type :: finditer (len - 1) s'
          | None => TLit c :: finditer 0 s'
          end
      end
  end.

(** *** [compile_path] *)

Record compiled : Type := {
  c_regex : list Re.src;
  c_format : string;
  c_convertors : Dict.t Convertor
}.

Section Construction.
Context {E : Externals}.

(** The body of the loop, together with the copying of the literal text
    between two matches. *)
Definition compile_step (acc : result compiled) (t : token) : result compiled :=
  st <- acc ;;
  match t with
  | TLit c =>
      Ok {| c_regex := c_regex st ++ [Re.SChar c];
            c_format := c_format st ++ String c "";
            c_convertors := c_convertors st |}
  | TParam param_name convertor_type =>
      match Dict.get convertor_type CONVERTOR_TYPES with
      | None => Raise AssertionError
      | Some convertor =>
          Ok {| c_regex := c_regex st ++ [Re.SGroup param_name (regex convertor)];
                c_format := c_format st ++ "{" ++ param_name ++ "}";
                c_convertors := Dict.set param_name convertor (c_convertors st) |}
      end
  end.

Definition compile_path (path : string)
  : result (Re.pattern * string * Dict.t Convertor) :=
  st <- fold_left compile_step (finditer 0 path)
          (Ok {| c_regex := []; c_format := ""; c_convertors := [] |}) ;;
  p <- Re.compile re_compile (c_regex st) ;;
  Ok (p, c_format st, c_convertors st).

End Construction.

(* ================================================================= *)
(** ** The route classes: data *)

Inductive Match : Type := NONE | PARTIAL | FULL.

Definition Match_eqb (a b : Match) : bool :=
  match a, b with
  | NONE, NONE | PARTIAL, PARTIAL | FULL, FULL => true
  | _, _ => false
  end.

(** Python sets of method names: lists without repetition. *)
Definition set_add (x : string) (s : list string) : list string :=
  if existsb (String.eqb x) s then s else s ++ [x].
Definition set_of (l : list string) : list string :=
  fold_left (fun s x => set_add x s) l [].
Definition set_in (x : string) (s : list string) : bool :=
  existsb (String.eqb x) s.

Record Route : Type := {
  r_path : string;
  r_endpoint : Callable;
  r_name : string;
  r_include_in_schema : bool;
  r_app : RouteApp;
  r_methods : option (list string);
  r_path_regex : Re.pattern;
  r_path_format : string;
  r_param_convertors : Dict.t Convertor
}.

Record WebSocketRoute : Type := {
  ws_path : string;
  ws_endpoint : Callable;
  ws_name : string;
  ws_app : RouteApp;
  ws_path_regex : Re.pattern;
  ws_path_format : string;
  ws_param_convertors : Dict.t Convertor
}.

(** A startup or shutdown handler: an opaque callable, told apart by an
    identifier. *)
Record Handler : Type := {
  handler_id : nat;
  iscoroutinefunction : bool
}.

Record Lifespan : Type := {
  startup_handlers : list Handler;
  shutdown_handlers : list Handler
}.

Record MountOf (A : Type) : Type := {
  m_path : string;
  m_app : A;
  m_name : option string;
  m_path_regex : Re.pattern;
  m_path_format : string;
  m_param_convertors : Dict.t Convertor
}.

Arguments m_path {A} _.
Arguments m_app {A} _.
Arguments m_name {A} _.
Arguments m_path_regex {A} _.
Arguments m_path_format {A} _.
Arguments m_param_convertors {A} _.

Record HostOf (A : Type) : Type := {
  h_host : string;
  h_app : A;
  h_name : option string;
  h_host_regex : Re.pattern;
  h_host_format : string;
  h_param_convertors : Dict.t Convertor
}.

Arguments h_host {A} _.
Arguments h_app {A} _.
Arguments h_name {A} _.
Arguments h_host_regex {A} _.
Arguments h_host_format {A} _.
Arguments h_param_convertors {A} _.

Record RouterOf (N A : Type) : Type := {
  routes : list N;
  redirect_slashes : bool;
  default : option A;        (* [None]: [self.not_found] *)
  lifespan : Lifespan
}.

Arguments routes {N A} _.
Arguments redirect_slashes {N A} _.
Arguments default {N A} _.
Arguments lifespan {N A} _.

(** The nodes of a routing tree and the ASGI applications they wrap.  An
    application is a [Router] or a callable the module knows nothing
    about. *)
Local Unset Elimination Schemes.
Inductive BaseRoute : Type :=
| ARoute (r : Route)
| AWebSocketRoute (r : WebSocketRoute)
| AMount (m : MountOf ASGIApp)
| AHost (h : HostOf ASGIApp)
| ALifespan (l : Lifespan)
with ASGIApp : Type :=
| ARouter (r : RouterOf BaseRoute ASGIApp)
| AnApp (c : Callable).
Local Set Elimination Schemes.

Definition Mount : Type := MountOf ASGIApp.
Definition Host : Type := HostOf ASGIApp.
Definition Router : Type := RouterOf BaseRoute ASGIApp.

(** The ASGI connection scope: the keys the module reads or writes.  An
    optional key is [None] when absent; [has_app] is ["app" in scope]. *)
Record Scope : Type := {
  type : string;
  path : string;
  method : string;
  headers : list (string * string);
  path_params : option (Dict.t value);
  root_path : option string;
  app_root_path : option string;
  endpoint : option ASGIApp;
  router : option Router;
  has_app : bool
}.

(** The second component of [matches]: the keys to merge into the scope. *)
Record ChildScope : Type := {
  cs_endpoint : option ASGIApp;
  cs_path_params : option (Dict.t value);
  cs_app_root_path : option string;
  cs_root_path : option string;
  cs_path : option string
}.

Definition empty_child : ChildScope :=
  {| cs_endpoint := None; cs_path_params := None; cs_app_root_path := None;
     cs_root_path := None; cs_path := None |}.

Definition or_else {A} (new old : option A) : option A :=
  match new with Some _ => new | None => old end.

(** [scope.update(child_scope)] *)
Definition scope_update (scope : Scope) (child : ChildScope) : Scope :=
  {| type := type scope;
     path := match cs_path child with Some p => p | None => path scope end;
     method := method scope;
     headers := headers scope;
     path_params := or_else (cs_path_params child) (path_params scope);
     root_path := or_else (cs_root_path child) (root_path scope);
     app_root_path := or_else (cs_app_root_path child) (app_root_path scope);
     endpoint := or_else (cs_endpoint child) (endpoint scope);
     router := router scope;
     has_app := has_app scope |}.

Definition set_path (scope : Scope) (p : string) : Scope :=
  {| type := type scope; path := p; method := method scope;
     headers := headers scope; path_params := path_params scope;
     root_path := root_path scope; app_root_path := app_root_path scope;
     endpoint := endpoint scope; router := router scope;
     has_app := has_app scope |}.

(** [if "router" not in scope: scope["router"] = self] *)
Definition set_router (scope : Scope) (self : Router) : Scope :=
  {| type := type scope; path := path scope; method := method scope;
     headers := headers scope; path_params := path_params scope;
     root_path := root_path scope; app_root_path := app_root_path scope;
     endpoint := endpoint scope;
     router := match router scope with Some r => Some r | None => Some self end;
     has_app := has_app scope |}.

(** Modelled from the spec: [starlette.datastructures.URLPath] is not
    among the sources; a reverse lookup returns a path, a protocol and a
    host (spec 6), the last two empty unless given. *)
Record URLPath : Type := {
  url_path : string;
  protocol : string;
  host : string
}.

(** What awaiting a node or an application amounts to, as far as this
    module decides it. *)
Inductive Response : Type :=
| PlainTextResponse (content : string) (status_code : nat)
| RedirectResponse (url_scope : Scope)   (* [url=str(URL(scope=url_scope))] *)
| WebSocketClose.

Inductive Outcome : Type :=
| Await (app : RouteApp) (scope : Scope)     (* a route's [self.app] is awaited *)
| AwaitApp (c : Callable) (scope : Scope)    (* an opaque application is awaited *)
| Respond (r : Response) (scope : Scope)     (* [await response(scope, ...)] *)
| AwaitLifespan (l : Lifespan) (scope : Scope)
| Raised (e : exn).

(* ================================================================= *)
(** ** [Route] *)

(** [matched_params[key] = self.param_convertors[key].convert(value)] for
    every group, in group order; the first lookup or conversion that
    fails ends the loop with its exception. *)
Fixpoint convert_params (param_convertors : Dict.t Convertor)
  (matched_params : Re.groupdict) : result (Dict.t value) :=
  match matched_params with
  | [] => Ok []
  | (key, v) :: rest =>
      match Dict.get key param_convertors with
      | None => Raise KeyError
      | Some convertor =>
          v' <- convert convertor v ;;
          rest' <- convert_params param_convertors rest ;;
          Ok ((key, v') :: rest')
      end
  end.

(** [dict(scope.get("path_params", {}))] *)
Definition scope_path_params (scope : Scope) : Dict.t value :=
  match path_params scope with Some d => d | None => [] end.

Section RouteInit.
Context {E : Externals}.

Definition Route_init (path : string) (endpoint : Callable)
  (methods : option (list string)) (name : option string)
  (include_in_schema : bool) : result Route :=
  assert! Str.startswith path "/" ;;
  let self_name := match name with None => get_name endpoint | Some n => n end in
  let '(app, methods) :=
    if isfunction endpoint || ismethod endpoint
    then (request_response endpoint,
          match methods with None => Some ["GET"] | Some _ => methods end)
    else (asgi endpoint, methods) in
  let self_methods :=
    match methods with
    | None => None
    | Some ms =>
        let s := set_of (map Str.upper ms) in
        Some (if set_in "GET" s then set_add "HEAD" s else s)
    end in
  c <- compile_path path ;;
  let '(path_regex, path_format, param_convertors) := c in
  Ok {| r_path := path; r_endpoint := endpoint; r_name := self_name;
        r_include_in_schema := include_in_schema; r_app := app;
        r_methods := self_methods; r_path_regex := path_regex;
        r_path_format := path_format;
        r_param_convertors := param_convertors |}.

End RouteInit.

(** [self.methods and scope["method"] not in self.methods]: [None] and
    the empty set are both falsy. *)
Definition method_rejected (methods : option (list string)) (m : string) : bool :=
  match methods with
  | None => false
  | Some [] => false
  | Some s => negb (set_in m s)
  end.

Definition Route_matches (self : Route) (scope : Scope)
  : result (Match * ChildScope) :=
  if type scope =? "http" then
    match Re.match_ (r_path_regex self) (path scope) with
    | Some g =>
        matched_params <- convert_params (r_param_convertors self) g ;;
        let path_params := Dict.update (scope_path_params scope) matched_params in
        let child_scope :=
          {| cs_endpoint := Some (AnApp (r_endpoint self));
             cs_path_params := Some path_params;
             cs_app_root_path := None; cs_root_path := None; cs_path := None |} in
        if method_rejected (r_methods self) (method scope)
        then Ok (PARTIAL, child_scope)
        else Ok (FULL, child_scope)
    | None => Ok (NONE, empty_child)
    end
  else Ok (NONE, empty_child).

(** A call [f(name, **path_params)] of a method [f(self, name,
    **path_params)]: a keyword called [self] or [name] gives the parameter
    a second value, and the call itself raises [TypeError]. *)
Definition bad_keywords (path_params : Dict.t value) : bool :=
  Dict.mem "self" path_params || Dict.mem "name" path_params.

(** The two leaf classes share the body of [url_path_for] up to the
    protocol. *)
Definition leaf_url_path_for (self_name path_format : string)
  (param_convertors : Dict.t Convertor) (proto : string)
  (name : string) (path_params : Dict.t value) : result URLPath :=
  if bad_keywords path_params then Raise TypeError else
  let seen_params := Dict.keys path_params in
  let expected_params := Dict.keys param_convertors in
  if negb (name =? self_name) || negb (set_eqb seen_params expected_params)
  then Raise NoMatchFound
  else
    r <- replace_params path_format param_convertors path_params ;;
    let '(path, remaining_params) := r in
    assert! (match remaining_params with [] => true | _ => false end) ;;
    Ok {| url_path := path; protocol := proto; host := "" |}.

Definition Route_url_path_for (self : Route) (name : string)
  (path_params : Dict.t value) : result URLPath :=
  leaf_url_path_for (r_name self) (r_path_format self) (r_param_convertors self)
    "http" name path_params.

Definition Route_call (self : Route) (scope : Scope) : Outcome :=
  if method_rejected (r_methods self) (method scope) then
    if has_app scope
    then Raised (HTTPException 405)
    else Respond (PlainTextResponse "Method Not Allowed" 405) scope
  else Await (r_app self) scope.

(* ================================================================= *)
(** ** [WebSocketRoute] *)

Section WebSocketRouteInit.
Context {E : Externals}.

Definition WebSocketRoute_init (path : string) (endpoint : Callable)
  (name : option string) : result WebSocketRoute :=
  assert! Str.startswith path "/" ;;
  let self_name := match name with None => get_name endpoint | Some n => n end in
  let app :=
    if isfunction endpoint || ismethod endpoint
    then websocket_session endpoint else asgi endpoint in
  c <- compile_path path ;;
  let '(path_regex, path_format, param_convertors) := c in
  Ok {| ws_path := path; ws_endpoint := endpoint; ws_name := self_name;
        ws_app := app; ws_path_regex := path_regex;
        ws_path_format := path_format;
        ws_param_convertors := param_convertors |}.

End WebSocketRouteInit.

Definition WebSocketRoute_matches (self : WebSocketRoute) (scope : Scope)
  : result (Match * ChildScope) :=
  if type scope =? "websocket" then
    match Re.match_ (ws_path_regex self) (path scope) with
    | Some g =>
        matched_params <- convert_params (ws_param_convertors self) g ;;
        let path_params := Dict.update (scope_path_params scope) matched_params in
        Ok (FULL,
            {| cs_endpoint := Some (AnApp (ws_endpoint self));
               cs_path_params := Some path_params;
               cs_app_root_path := None; cs_root_path := None; cs_path := None |})
    | None => Ok (NONE, empty_child)
    end
  else Ok (NONE, empty_child).

Definition WebSocketRoute_url_path_for (self : WebSocketRoute) (name : string)
  (path_params : Dict.t value) : result URLPath :=
  leaf_url_path_for (ws_name self) (ws_path_format self)
    (ws_param_convertors self) "websocket" name path_params.

Definition WebSocketRoute_call (self : WebSocketRoute) (scope : Scope) : Outcome :=
  Await (ws_app self) scope.

(* ================================================================= *)
(** ** [Lifespan], [Router.__init__], [Mount] and [Host]: construction
       and matching *)

(** [on_startup] and [on_shutdown]: nothing, one callable, or a list. *)
Inductive handlers_arg : Type :=
| NoHandler
| OneHandler (h : Handler)
| HandlerList (l : list Handler).

Definition to_list (item : handlers_arg) : list Handler :=
  match item with
  | NoHandler => []
  | OneHandler h => [h]
  | HandlerList l => l
  end.

Definition Lifespan_init (on_startup on_shutdown : handlers_arg) : Lifespan :=
  {| startup_handlers := to_list on_startup;
     shutdown_handlers := to_list on_shutdown |}.

Definition Lifespan_matches (self : Lifespan) (scope : Scope)
  : result (Match * ChildScope) :=
  if type scope =? "lifespan" then Ok (FULL, empty_child)
  else Ok (NONE, empty_child).

Definition Router_init (routes_arg : option (list BaseRoute))
  (redirect : bool) (default_arg : option ASGIApp)
  (on_startup on_shutdown : handlers_arg) : Router :=
  {| routes := match routes_arg with None => [] | Some l => l end;
     redirect_slashes := redirect;
     default := default_arg;
     lifespan := Lifespan_init on_startup on_shutdown |}.

Section MountInit.
Context {E : Externals}.

Definition Mount_init (path : string) (app : option ASGIApp)
  (routes_arg : option (list BaseRoute)) (name : option string) : result Mount :=
  assert! (path =? "") || Str.startswith path "/" ;;
  assert! (match app, routes_arg with None, None => false | _, _ => true end) ;;
  let self_path := Str.rstrip path "/" in
  let self_app :=
    match app with
    | Some a => a
    | None => ARouter (Router_init routes_arg true None NoHandler NoHandler)
    end in
  c <- compile_path (self_path ++ "/{path:path}") ;;
  let '(path_regex, path_format, param_convertors) := c in
  Ok {| m_path := self_path; m_app := self_app; m_name := name;
        m_path_regex := path_regex; m_path_format := path_format;
        m_param_convertors := param_convertors |}.

End MountInit.

(** [getattr(self.app, "routes", None)]: an opaque application shows no
    routes. *)
Definition app_routes (a : ASGIApp) : option (list BaseRoute) :=
  match a with
  | ARouter r => Some (routes r)
  | AnApp _ => None
  end.

Definition is_path_request (scope : Scope) : bool :=
  (type scope =? "http") || (type scope =? "websocket").

(** ["/" + value]: text can only be joined to text. *)
Definition slash_plus (v : value) : result string :=
  match v with
  | VStr s => Ok ("/" ++ s)
  | _ => Raise TypeError
  end.

Definition Mount_matches (self : Mount) (scope : Scope)
  : result (Match * ChildScope) :=
  if is_path_request scope then
    let path := path scope in
    match Re.match_ (m_path_regex self) path with
    | Some g =>
        matched_params <- convert_params (m_param_convertors self) g ;;
        (* [matched_params.pop("path")] *)
        rest <- match Dict.get "path" matched_params with
                | Some v => Ok v
                | None => Raise KeyError
                end ;;
        let matched_params := Dict.pop "path" matched_params in
        remaining_path <- slash_plus rest ;;
        let matched_path := Str.drop_last (String.length remaining_path) path in
        let path_params := Dict.update (scope_path_params scope) matched_params in
        let root := match root_path scope with Some r => r | None => "" end in
        Ok (FULL,
            {| cs_endpoint := Some (m_app self);
               cs_path_params := Some path_params;
               cs_app_root_path :=
                 Some (match app_root_path scope with Some a => a | None => root end);
               cs_root_path := Some (root ++ matched_path);
               cs_path := Some remaining_path |})
    | None => Ok (NONE, empty_child)
    end
  else Ok (NONE, empty_child).

Section HostInit.
Context {E : Externals}.

Definition Host_init (host_template : string) (app : ASGIApp)
  (name : option string) : result Host :=
  c <- compile_path host_template ;;
  let '(host_regex, host_format, param_convertors) := c in
  Ok {| h_host := host_template; h_app := app; h_name := name;
        h_host_regex := host_regex; h_host_format := host_format;
        h_param_convertors := param_convertors |}.

End HostInit.

(** Modelled from the spec: [starlette.datastructures.Headers] is not
    among the sources; matching reads the [Host] header (spec 3), an
    absent header reading as the empty string. *)
Fixpoint headers_get (key : string) (hs : list (string * string)) (dflt : string)
  : string :=
  match hs with
  | [] => dflt
  | (k, v) :: hs' => if k =? key then v else headers_get key hs' dflt
  end.

Definition Host_matches (self : Host) (scope : Scope)
  : result (Match * ChildScope) :=
  if is_path_request scope then
    let host := Str.split_head (headers_get "host" (headers scope) "") ":" in
    match Re.match_ (h_host_regex self) host with
    | Some g =>
        matched_params <- convert_params (h_param_convertors self) g ;;
        let path_params := Dict.update (scope_path_params scope) matched_params in
        Ok (FULL,
            {| cs_endpoint := Some (h_app self);
               cs_path_params := Some path_params;
               cs_app_root_path := None; cs_root_path := None; cs_path := None |})
    | None => Ok (NONE, empty_child)
    end
  else Ok (NONE, empty_child).

(** [route.matches(scope)] by dynamic dispatch. *)
Definition matches (route : BaseRoute) (scope : Scope)
  : result (Match * ChildScope) :=
  match route with
  | ARoute r => Route_matches r scope
  | AWebSocketRoute r => WebSocketRoute_matches r scope
  | AMount m => Mount_matches m scope
  | AHost h => Host_matches h scope
  | ALifespan l => Lifespan_matches l scope
  end.

(* ================================================================= *)
(** ** [url_path_for] over the tree *)

(** [value.lstrip("/")]: a method of text. *)
Definition lstrip_slash (v : value) : result value :=
  match v with
  | VStr s => Ok (VStr (Str.lstrip s "/"))
  | _ => Raise AttributeError
  end.

Section ReverseLoops.
Variable url_path_for : BaseRoute -> string -> Dict.t value -> result URLPath.

(** [for route in routes: try: url = route.url_path_for(...); return
    wrap(url) except NoMatchFound: pass] and then [raise NoMatchFound()].
    Any other exception leaves the loop. *)
Fixpoint first_url (wrap : URLPath -> URLPath) (rs : list BaseRoute)
  (name : string) (path_params : Dict.t value) : result URLPath :=
  match rs with
  | [] => Raise NoMatchFound
  | route :: rs' =>
      match url_path_for route name path_params with
      | Ok url => Ok (wrap url)
      | Raise NoMatchFound => first_url wrap rs' name path_params
      | Raise e => Raise e
      end
  end.

(** [Mount.url_path_for]; [children] is the loop over [self.routes or
    []]. *)
Definition Mount_url_path_for_with
  (children : (URLPath -> URLPath) -> string -> Dict.t value -> result URLPath)
  (self : Mount) (name : string) (path_params : Dict.t value) : result URLPath :=
  if bad_keywords path_params then Raise TypeError else
  let named := match m_name self with Some n => name =? n | None => false end in
  if named && Dict.mem "path" path_params then
    (* 'name' matches "<mount_name>". *)
    let p := match Dict.get "path" path_params with Some v => v | None => VNone end in
    p' <- lstrip_slash p ;;
    let path_params := Dict.set "path" p' path_params in
    r <- replace_params (m_path_format self) (m_param_convertors self) path_params ;;
    let '(path, remaining_params) := r in
    match remaining_params with
    | [] => Ok {| url_path := path; protocol := ""; host := "" |}
    | _ => Raise NoMatchFound
    end
  else if match m_name self with
          | None => true
          | Some n => Str.startswith name (n ++ ":")
          end then
    let remaining_name :=
      match m_name self with
      | None => name                                    (* No mount name. *)
      | Some n => Str.drop (String.length n + 1) name   (* "<mount_name>:<child_name>" *)
      end in
    let path_kwarg := Dict.get "path" path_params in
    let path_params := Dict.set "path" (VStr "") path_params in
    r <- replace_params (m_path_format self) (m_param_convertors self) path_params ;;
    let '(path_prefix, remaining_params) := r in
    let remaining_params :=
      match path_kwarg with
      | None | Some VNone => remaining_params      (* [path_kwarg is None] *)
      | Some v => Dict.set "path" v remaining_params
      end in
    children
      (fun url => {| url_path := Str.rstrip path_prefix "/" ++ url_path url;
                     protocol := protocol url; host := "" |})
      remaining_name remaining_params
  else Raise NoMatchFound.

(** [Host.url_path_for]; [URLPath(path=path, host=host)] takes the text
    of [path]. *)
Definition Host_url_path_for_with
  (children : (URLPath -> URLPath) -> string -> Dict.t value -> result URLPath)
  (self : Host) (name : string) (path_params : Dict.t value) : result URLPath :=
  if bad_keywords path_params then Raise TypeError else
  let named := match h_name self with Some n => name =? n | None => false end in
  if named && Dict.mem "path" path_params then
    let p := match Dict.get "path" path_params with Some v => v | None => VNone end in
    let path_params := Dict.pop "path" path_params in
    r <- replace_params (h_host_format self) (h_param_convertors self) path_params ;;
    let '(host_, remaining_params) := r in
    match remaining_params with
    | [] => Ok {| url_path := str p; protocol := ""; host := host_ |}
    | _ => Raise NoMatchFound
    end
  else if match h_name self with
          | None => true
          | Some n => Str.startswith name (n ++ ":")
          end then
    let remaining_name :=
      match h_name self with
      | None => name
      | Some n => Str.drop (String.length n + 1) name
      end in
    r <- replace_params (h_host_format self) (h_param_convertors self) path_params ;;
    let '(host_, remaining_params) := r in
    children
      (fun url => {| url_path := url_path url; protocol := protocol url;
                     host := host_ |})
      remaining_name remaining_params
  else Raise NoMatchFound.
End ReverseLoops.

(** [BaseRoute.url_path_for], which [Lifespan] inherits. *)
Definition BaseRoute_url_path_for (name : string) (path_params : Dict.t value)
  : result URLPath :=
  if bad_keywords path_params then Raise TypeError
  else Raise NotImplementedError.

(** [route.url_path_for(name, **path_params)] by dynamic dispatch. *)
Fixpoint url_path_for (route : BaseRoute) (name : string)
  (path_params : Dict.t value) {struct route} : result URLPath :=
  match route with
  | ARoute r => Route_url_path_for r name path_params
  | AWebSocketRoute r => WebSocketRoute_url_path_for r name path_params
  | AMount m =>
      Mount_url_path_for_with
        (fun wrap n ps =>
           match m_app m with
           | ARouter r => first_url url_path_for wrap (routes r) n ps
           | AnApp _ => Raise NoMatchFound
           end)
        m name path_params
  | AHost h =>
      Host_url_path_for_with
        (fun wrap n ps =>
           match h_app h with
           | ARouter r => first_url url_path_for wrap (routes r) n ps
           | AnApp _ => Raise NoMatchFound
           end)
        h name path_params
  | ALifespan _ => BaseRoute_url_path_for name path_params
  end.

(** The loop over [self.routes or []] of a mount or host. *)
Definition children_url_path_for (app : ASGIApp) (wrap : URLPath -> URLPath)
  (name : string) (path_params : Dict.t value) : result URLPath :=
  match app with
  | ARouter r => first_url url_path_for wrap (routes r) name path_params
  | AnApp _ => Raise NoMatchFound
  end.

Definition Mount_url_path_for (self : Mount) :=
  Mount_url_path_for_with (children_url_path_for (m_app self)) self.

Definition Host_url_path_for (self : Host) :=
  Host_url_path_for_with (children_url_path_for (h_app self)) self.

Definition Router_url_path_for (self : Router) (name : string)
  (path_params : Dict.t value) : result URLPath :=
  if bad_keywords path_params then Raise TypeError else
  first_url url_path_for (fun url => url) (routes self) name path_params.

(* ================================================================= *)
(** ** [Router.__call__] and dispatch over the tree *)

(** [Router.not_found] *)
Definition not_found (scope : Scope) : Outcome :=
  if type scope =? "websocket" then Respond WebSocketClose scope
  else if has_app scope then Raised (HTTPException 404)
  else Respond (PlainTextResponse "Not Found" 404) scope.

(** The path tried by the trailing-slash redirect. *)
Definition redirect_path_of (p : string) : string :=
  if Str.endswith p "/" then Str.rstrip p "/" else p ++ "/".

(** The second loop of [Router.__call__]: does any route match the
    redirect scope at any level?  The loop stops at the first route that
    does; an exception of [matches] leaves it. *)
Fixpoint any_match (rs : list BaseRoute) (redirect_scope : Scope) : result bool :=
  match rs with
  | [] => Ok false
  | route :: rs' =>
      r <- matches route redirect_scope ;;
      let '(m, child_scope) := r in
      if negb (Match_eqb m NONE) then Ok true
      else any_match rs' redirect_scope
  end.

Section Dispatch.
Variable call : BaseRoute -> Scope -> Outcome.
Variable call_app : ASGIApp -> Scope -> Outcome.

(** The first loop of [Router.__call__].  The result is what the
    function has awaited, or the exception of [matches] it has let
    through, when it leaves the loop or the [if partial is not None] that
    follows it; [None] when it goes on.  [partial] stands for the pair
    [partial], [partial_scope]: it holds what awaiting that route with the
    merged scope gives. *)
Fixpoint scan (scope : Scope) (rs : list BaseRoute) (partial : option Outcome)
  : option Outcome :=
  match rs with
  | [] => partial
  | route :: rs' =>
      match matches route scope with
      | Raise e => Some (Raised e)
      | Ok (FULL, child_scope) =>
          Some (call route (scope_update scope child_scope))
      | Ok (PARTIAL, child_scope) =>
          scan scope rs'
            (match partial with
             | None => Some (call route (scope_update scope child_scope))
             | Some _ => partial
             end)
      | Ok (NONE, _) => scan scope rs' partial
      end
  end.

Definition Router_call_with (self : Router) (scope0 : Scope) : Outcome :=
  if negb ((type scope0 =? "http") || (type scope0 =? "websocket")
           || (type scope0 =? "lifespan"))
  then Raised AssertionError
  else
    let scope := set_router scope0 self in
    match scan scope (routes self) None with
    | Some out => out
    | None =>
        let fallthrough :=
          if type scope =? "lifespan"
          then AwaitLifespan (lifespan self) scope
          else match default self with
               | None => not_found scope
               | Some d => call_app d scope
               end in
        if (type scope =? "http") && redirect_slashes self then
          let redirect_path := redirect_path_of (path scope) in
          if negb (redirect_path =? "") then   (* the "/" -> "" case is skipped *)
            let redirect_scope := set_path scope redirect_path in
            match any_match (routes self) redirect_scope with
            | Raise e => Raised e
            | Ok true => Respond (RedirectResponse redirect_scope) scope
            | Ok false => fallthrough
            end
          else fallthrough
        else fallthrough
    end.
End Dispatch.

(** Awaiting a node ([route(scope, receive, send)]) and awaiting an
    application. *)
Fixpoint call_route (route : BaseRoute) (scope : Scope) {struct route} : Outcome :=
  match route with
  | ARoute r => Route_call r scope
  | AWebSocketRoute r => WebSocketRoute_call r scope
  | AMount m => call_app (m_app m) scope
  | AHost h => call_app (h_app h) scope
  | ALifespan l => AwaitLifespan l scope
  end
with call_app (app : ASGIApp) (scope : Scope) {struct app} : Outcome :=
  match app with
  | AnApp c => AwaitApp c scope
  | ARouter r => Router_call_with call_route call_app r scope
  end.

Definition Router_call (self : Router) (scope : Scope) : Outcome :=
  Router_call_with call_route call_app self scope.

(* ================================================================= *)
(** ** [Lifespan.__call__]: the startup and shutdown handshake *)

Module LifespanProtocol.

(** Messages on the channel. *)
Inductive message : Type :=
| lifespan_startup                        (* {"type": "lifespan.startup"} *)
| lifespan_shutdown                       (* {"type": "lifespan.shutdown"} *)
| lifespan_startup_complete
| lifespan_startup_failed (msg : string)  (* with its "message" *)
| lifespan_shutdown_complete
| other (type_ : string).

Definition is_startup (m : message) : bool :=
  match m with lifespan_startup => true | _ => false end.
Definition is_shutdown (m : message) : bool :=
  match m with lifespan_shutdown => true | _ => false end.

Inductive event : Type :=
| Received (m : message)
| Awaited (h : Handler)     (* [await handler()] *)
| Called (h : Handler)      (* [handler()] *)
| Sent (m : message).

Section Protocol.
(** Whatever the handlers act on, what running one does to it (an
    exception when it fails), and [traceback.format_exc()]. *)
Variable World : Type.
Variable run : Handler -> World -> World * option exn.
Variable format_exc : exn -> string.

Record io : Type := {
  inbox : list message;    (* what [receive()] will deliver *)
  world : World;
  trace : list event       (* what has happened, oldest first *)
}.

(** A coroutine step returns, raises, or waits for a message that
    never comes. *)
Inductive answer (A : Type) : Type :=
| Return (a : A)
| Throw (e : exn)
| Pending.
Arguments Return {A} a.
Arguments Throw {A} e.
Arguments Pending {A}.

Definition M (A : Type) : Type := io -> io * answer A.

Definition ret {A} (a : A) : M A := fun s => (s, Return a).
Definition throw {A} (e : exn) : M A := fun s => (s, Throw e).
Definition seq {A B} (m : M A) (f : A -> M B) : M B :=
  fun s =>
    match m s with
    | (s', Return a) => f a s'
    | (s', Throw e) => (s', Throw e)
    | (s', Pending) => (s', Pending)
    end.
(** [try: m except BaseException: h] *)
Definition try_except {A} (m : M A) (h : exn -> M A) : M A :=
  fun s =>
    match m s with
    | (s', Throw e) => h e s'
    | r => r
    end.

Local Notation "x <~ m ; k" := (seq m (fun x => k))
  (at level 61, m at next level, right associativity).
Local Notation "m ;> k" := (seq m (fun _ => k))
  (at level 61, right associativity).

Definition log (e : event) (s : io) : io :=
  {| inbox := inbox s; world := world s; trace := trace s ++ [e] |}.

Definition receive : M message :=
  fun s =>
    match inbox s with
    | [] => (s, Pending)
    | m :: rest =>
        ({| inbox := rest; world := world s;
            trace := trace s ++ [Received m] |}, Return m)
    end.

Definition send (m : message) : M unit :=
  fun s => (log (Sent m) s, Return tt).

Definition assert_ (b : bool) : M unit :=
  if b then ret tt else throw AssertionError.

Definition invoke (e : event) (h : Handler) : M unit :=
  fun s =>
    let s1 := log e s in
    let '(w, r) := run h (world s1) in
    let s2 := {| inbox := inbox s1; world := w; trace := trace s1 |} in
    match r with
    | None => (s2, Return tt)
    | Some x => (s2, Throw x)
    end.

(** The loop shared by [startup] and [shutdown]. *)
Fixpoint run_handlers (hs : list Handler) : M unit :=
  match hs with
  | [] => ret tt
  | handler :: hs' =>
      (if iscoroutinefunction handler
       then invoke (Awaited handler) handler
       else invoke (Called handler) handler) ;>
      run_handlers hs'
  end.

Definition startup (self : Lifespan) : M unit :=
  run_handlers (startup_handlers self).
Definition shutdown (self : Lifespan) : M unit :=
  run_handlers (shutdown_handlers self).

Definition Lifespan_call (self : Lifespan) : M unit :=
  message <~ receive ;
  assert_ (is_startup message) ;>
  try_except (startup self)
    (fun e => send (lifespan_startup_failed (format_exc e)) ;> throw e) ;>
  send lifespan_startup_complete ;>
  message <~ receive ;
  assert_ (is_shutdown message) ;>
  shutdown self ;>
  send lifespan_shutdown_complete.

(** The event a handler leaves in the trace. *)
Definition ran (h : Handler) : event :=
  if iscoroutinefunction h then Awaited h else Called h.

(** [succeed hs w w']: started in [w], the handlers [hs] all return
    normally, one after the other, and leave [w']. *)
Inductive succeed : list Handler -> World -> World -> Prop :=
| succeed_nil w : succeed [] w w
| succeed_cons h hs w w1 w' :
    run h w = (w1, None) -> succeed hs w1 w' -> succeed (h :: hs) w w'.

End Protocol.

Arguments Return {A} a.
Arguments Throw {A} e.
Arguments Pending {A}.

End LifespanProtocol.

(* ================================================================= *)
(** ** Vocabulary of the statements *)

(** No route of [l] answers [FULL] (resp. every route answers [NONE]) on
    [scope]: [matches] returns, with another answer (resp. with
    [NONE]). *)
Definition none_full (scope : Scope) (l : list BaseRoute) : Prop :=
  forall route, In route l ->
    exists m child, matches route scope = Ok (m, child) /\ m <> FULL.
Definition all_none (scope : Scope) (l : list BaseRoute) : Prop :=
  forall route, In route l ->
    exists child, matches route scope = Ok (NONE, child).




Definition redirected (out : Outcome) : bool :=
  match out with
  | Respond (RedirectResponse _) _ => true
  | _ => false
  end.

(** The two shapes of a method-not-allowed outcome: the typed error under
    a surrounding application, the plain response otherwise. *)
Definition method_not_allowed (scope : Scope) (out : Outcome) : Prop :=
  if has_app scope
  then out = Raised (HTTPException 405)
  else exists sc, out = Respond (PlainTextResponse "Method Not Allowed" 405) sc.

(** What [Router.__call__] does once neither loop has answered. *)
Definition default_handling (self : Router) (scope : Scope) : Outcome :=
  if type scope =? "lifespan"
  then AwaitLifespan (lifespan self) scope
  else match default self with
       | None => not_found scope
       | Some d => call_app d scope
       end.

(** The child scope of a leaf route: the endpoint and the path
    parameters. *)
Definition leaf_child (endpoint : Callable) (params : Dict.t value)
  : ChildScope :=
  {| cs_endpoint := Some (AnApp endpoint); cs_path_params := Some params;
     cs_app_root_path := None; cs_root_path := None; cs_path := None |}.


(** Sample endpoints and scopes. *)
Definition fn (n : string) : Callable :=
  {| kind := KFunction; name__ := n; class_name__ := "function" |}.

Definition http (m p : string) : Scope :=
  {| type := "http"; path := p; method := m; headers := [];
     path_params := None; root_path := None; app_root_path := None;
     endpoint := None; router := None; has_app := false |}.

Definition websocket (p : string) : Scope :=
  {| type := "websocket"; path := p; method := ""; headers := [];
     path_params := None; root_path := None; app_root_path := None;
     endpoint := None; router := None; has_app := false |}.

(** The value of a constructor call that did not raise. *)
Definition the {A : Type} (r : result A)
  : match r return Type with Ok _ => A | Raise _ => unit end :=
  match r with
  | Ok a => a
  | Raise _ => tt
  end.

(** A router built from routes that were constructed without error. *)
Definition router_of (rs : list BaseRoute) : Router :=
  Router_init (Some rs) true None NoHandler NoHandler.

(** *** What a match means

    [matched p g u]: the pieces [p] (without the anchors) match exactly
    the text [u], the groups capturing [g]. *)




(** [groupdict()] of a match in which every group captured text. *)
Definition all_captured (g : Dict.t string) : Re.groupdict :=
  map (fun kv => (fst kv, Some (snd kv))) g.

(** *** What [compile_path] makes of the tokens of a template *)

Fixpoint format_of (toks : list token) : string :=
  match toks with
  | [] => ""
  | TLit c :: ts => String c (format_of ts)
  | TParam n _ :: ts => "{" ++ n ++ "}" ++ format_of ts
  end.

(** The names of the placeholders, in the order of the template. *)
Fixpoint param_names (toks : list token) : list string :=
  match toks with
  | [] => []
  | TLit _ :: ts => param_names ts
  | TParam n _ :: ts => n :: param_names ts
  end.

Section Tokens.
Context {E : Externals}.

Definition convertor_of (convertor_type : string) : Convertor :=
  match Dict.get convertor_type CONVERTOR_TYPES with
  | Some c => c
  | None => StringConvertor
  end.

Fixpoint src_of (toks : list token) : list Re.src :=
  match toks with
  | [] => []
  | TLit c :: ts => Re.SChar c :: src_of ts
  | TParam n ty :: ts => Re.SGroup n (regex (convertor_of ty)) :: src_of ts
  end.

(** The convertors of a template as the loop of [compile_path] collects
    them: a name that occurs twice keeps its place and takes the later
    type. *)
Definition convertors_of (toks : list token) : Dict.t Convertor :=
  fold_left (fun d t => match t with
                        | TParam n ty => Dict.set n (convertor_of ty) d
                        | TLit _ => d
                        end) toks [].

(** The convertors of a template in which no name occurs twice. *)
Fixpoint params_of (toks : list token) : Dict.t Convertor :=
  match toks with
  | [] => []
  | TLit _ :: ts => params_of ts
  | TParam n ty :: ts => (n, convertor_of ty) :: params_of ts
  end.

End Tokens.

(** The literal text has no character with a role in regular
    expressions ([.] apart); no [.] either; no opening brace. *)
Definition plain_text (toks : list token) : Prop :=
  forall c, In (TLit c) toks -> Re.special c = false.
Definition brace_free (toks : list token) : Prop :=
  forall c, In (TLit c) toks -> c <> "{"%char.

(** Every placeholder is of the string or of the path type. *)
Definition std_type (ty : string) : bool := (ty =? "str") || (ty =? "path").
Definition std_types (toks : list token) : Prop :=
  forall n ty, In (TParam n ty) toks -> std_type ty = true.

(** What such a template is read as: each character for itself ([.] for
    any character but a newline), each placeholder for a group. *)
Definition body_of (ty : string) : list Re.atom :=
  if ty =? "path" then [Re.AStar Re.CDot] else [Re.APlus (Re.CNot Str.slash)].

Fixpoint pieces_of (toks : list token) : Re.pieces :=
  match toks with
  | [] => []
  | TLit c :: ts => Re.PLit (Re.char_class c) :: pieces_of ts
  | TParam n ty :: ts => Re.PGroup n (body_of ty) :: pieces_of ts
  end.

(** Text without an opening brace, and text without any brace. *)
Definition clean (s : string) : Prop := Str.mem "{" s = false.
Definition nobrace (s : string) : Prop :=
  Str.mem "{" s = false /\ Str.mem "}" s = false.

(** *** Substitution into a format

    [hole k] is the placeholder for the parameter [k]. *)
Definition hole (k : string) : string := "{" ++ k ++ "}".

(** The parameters encoded by their convertors, in the order given: the
    first failure is the result. *)
Fixpoint encode_params (param_convertors : Dict.t Convertor)
  (path_params : Dict.t value) : result (Dict.t string) :=
  match path_params with
  | [] => Ok []
  | (k, v) :: rest =>
      match Dict.get k param_convertors with
      | None => Raise KeyError
      | Some c =>
          t <- to_string c v ;;
          rest' <- encode_params param_convertors rest ;;
          Ok ((k, t) :: rest')
      end
  end.

(** One replacement after the other, in the order of the dict. *)
Definition substitute_each (path : string) (texts : Dict.t string) : string :=
  fold_left (fun p kt => Str.replace p (hole (fst kt)) (snd kt)) texts path.

(** The canonical format with every placeholder filled in at once: the
    literal text as it is, each placeholder replaced by the text of its
    parameter (left as it is when [texts] has none). *)
Fixpoint fill (toks : list token) (texts : Dict.t string) : string :=
  match toks with
  | [] => ""
  | TLit c :: ts => String c (fill ts texts)
  | TParam n ty :: ts =>
      match Dict.get n texts with
      | Some t => t
      | None => hole n
      end ++ fill ts texts
  end.

(** A format cut into literal text and placeholders, the state of a path
    while [replace_params] works on it. *)
Inductive chunk : Type :=
| Text (s : string)
| Hole (n : string).

Fixpoint render (cs : list chunk) : string :=
  match cs with
  | [] => ""
  | Text s :: r => s ++ render r
  | Hole n :: r => hole n ++ render r
  end.

Definition chunk_of (t : token) : chunk :=
  match t with
  | TLit c => Text (String c "")
  | TParam n _ => Hole n
  end.

Definition subst1 (k : string) (v : string) (c : chunk) : chunk :=
  match c with
  | Hole n => if n =? k then Text v else c
  | Text _ => c
  end.

(** The placeholder [n] once every entry of [l] has been substituted. *)
Definition resolve (l : Dict.t string) (c : chunk) : chunk :=
  fold_left (fun c kv => subst1 (fst kv) (snd kv) c) l c.

Definition is_hole (k : string) (c : chunk) : bool :=
  match c with
  | Hole n => n =? k
  | Text _ => false
  end.
Definition has_hole (k : string) (cs : list chunk) : bool :=
  existsb (is_hole k) cs.

(** The parameters that have a placeholder in the template, and the
    others. *)
Definition has_param (toks : list token) (k : string) : bool :=
  existsb (String.eqb k) (param_names toks).
Definition used_params {V : Type} (toks : list token) (l : Dict.t V)
  : Dict.t V :=
  filter (fun kv => has_param toks (fst kv)) l.
Definition leftover_params {V : Type} (toks : list token) (l : Dict.t V)
  : Dict.t V :=
  filter (fun kv => negb (has_param toks (fst kv))) l.

(** Every placeholder name is free of braces, as the names [PARAM_REGEX]
    finds are. *)
Definition names_nobrace (toks : list token) : Prop :=
  forall n ty, In (TParam n ty) toks -> nobrace n.

(** The encodings of the parameters bring in no opening brace. *)
Definition clean_encodings (param_convertors : Dict.t Convertor)
  (path_params : Dict.t value) : Prop :=
  forall k v c t, In (k, v) path_params ->
    Dict.get k param_convertors = Some c -> to_string c v = Ok t -> clean t.

(** The tokens a mount adds to its prefix: ["/{path:path}"]. *)
Definition mount_tail : list token := [TLit "/"; TParam "path" "path"].

(** A template that is literal text only, without [.] and without any
    character with a role in regular expressions. *)
Definition literal_template (toks : list token) : Prop :=
  forall t, In t toks ->
    exists c, t = TLit c /\ c <> "."%char /\ Re.special c = false.




(** *** The examples

    The examples take the integer convertor as the one convertor beyond
    the string and the path convertor.  Their templates are all read in
    [Re.parse], so that [re.compile] of the library has no part in them:
    it is given as a function that refuses every text. *)
#[export] Instance sample_externals : Externals :=
  {| other_convertors := [("int", IntegerConvertor)];
     re_compile := fun _ => Raise re_error |}.

Definition items_route : Route :=
  the (Route_init "/items" (fn "items") None None true).
Definition user_route : Route :=
  the (Route_init "/users/{id}" (fn "user") None None true).
Definition create_user_route : Route :=
  the (Route_init "/users/{id}" (fn "create_user") (Some ["post"]) None true).
Definition ws_route : WebSocketRoute :=
  the (WebSocketRoute_init "/ws" (fn "ws") None).
(** [Route("/x", x, methods=[])] *)
Definition no_methods_route : Route :=
  the (Route_init "/x" (fn "x") (Some []) None true).
Definition pair_route : Route :=
  the (Route_init "/{a}/{b}" (fn "pair") None None true).
Definition number_route : Route :=
  the (Route_init "/users/{id:int}" (fn "number") None None true).
Definition named_route : Route :=
  the (Route_init "/users/{name}" (fn "named") None None true).
Definition user_mount : Mount :=
  the (Mount_init "/users/{id}" None (Some [ARoute items_route]) (Some "u")).

(** A mount whose first nested node is a [Lifespan]. *)
Definition lifespan_mount : Mount :=
  the (Mount_init "/api" None
         (Some [ALifespan (Lifespan_init NoHandler NoHandler);
                ARoute items_route])
         (Some "api")).
(** [Route("/items", App)], with an endpoint that is a class. *)
Definition class_route : Route :=
  the (Route_init "/items/{id:int}"
         {| kind := KClass; name__ := "App"; class_name__ := "type" |}
         None None true).


(** Handlers over a counter: the handler numbered 0 fails, every other one
    adds one. *)
Definition handler (i : nat) : Handler :=
  {| handler_id := i; iscoroutinefunction := Nat.even i |}.
Definition sample_run (h : Handler) (w : nat) : nat * option exn :=
  if Nat.eqb (handler_id h) 0 then (w, Some (HandlerError "boom"))
  else (w + 1, None).
Definition sample_format_exc (e : exn) : string :=
  match e with
  | HandlerError d => d
  | _ => "error"
  end.
Definition fresh_io (msgs : list LifespanProtocol.message)
  : LifespanProtocol.io nat :=
  {| LifespanProtocol.inbox := msgs; LifespanProtocol.world := 0;
     LifespanProtocol.trace := [] |}.

(** Settles a statement about every route of a concrete list by
    evaluating [matches] on each. *)
Ltac only_route :=
  let r := fresh "r" in
  let H := fresh "H" in
  intros r H;
  repeat (destruct H as [H | H];
          [subst r;
           first [ eexists; eexists; split; [lazy; reflexivity | discriminate]
                 | eexists; lazy; reflexivity ]|]);
  try destruct H.

(** Settles a statement about every token of a concrete template. *)
Ltac each_token :=
  let H := fresh "H" in
  red; intros; match goal with Hin : In _ _ |- _ => rename Hin into H end;
  vm_compute in H;
  repeat (destruct H as [H | H];
          [first [ discriminate H
                 | injection H as <- <-; first [reflexivity | discriminate]
                 | injection H as <-; first [reflexivity | discriminate] ]|]);
  try destruct H.

(* ================================================================= *)
(** * Properties *)

(** ** Router dispatch *)

Lemma matches_set_router route scope self :
  matches route (set_router scope self) = matches route scope.
Proof. destruct route; reflexivity. Qed.

Lemma matches_partial_is_route route scope child :
  matches route scope = Ok (PARTIAL, child) ->
  exists r, route = ARoute r /\
            method_rejected (r_methods r) (method scope) = true.
Proof.
  destruct route as [r|r|m|h|l]; simpl.
  - unfold Route_matches. intros H. exists r. split; [reflexivity|].
    destruct (type scope =? "http"); [|discriminate].
    destruct (Re.match_ _ _); [|discriminate].
    destruct (convert_params _ _); [|discriminate]. simpl in H.
    destruct (method_rejected _ _); [reflexivity|discriminate].
  - unfold WebSocketRoute_matches.
    destruct (type scope =? "websocket"); [|discriminate].
    destruct (Re.match_ _ _); [|discriminate].
    destruct (convert_params _ _); discriminate.
  - unfold Mount_matches. destruct (is_path_request scope); [|discriminate].
    destruct (Re.match_ _ _); [|discriminate].
    destruct (convert_params _ _); [|discriminate]. simpl.
    destruct (Dict.get "path" _); [|discriminate]. simpl.
    destruct (slash_plus _); discriminate.
  - unfold Host_matches. destruct (is_path_request scope); [|discriminate].
    destruct (Re.match_ _ _); [|discriminate].
    destruct (convert_params _ _); discriminate.
  - unfold Lifespan_matches. destruct (type scope =? "lifespan"); discriminate.
Qed.

Lemma none_full_tail scope x l : none_full scope (x :: l) -> none_full scope l.
Proof. intros H y Hy. apply H. right. exact Hy. Qed.

Lemma all_none_tail scope x l : all_none scope (x :: l) -> all_none scope l.
Proof. intros H y Hy. apply H. right. exact Hy. Qed.

Lemma all_none_no_full scope l : all_none scope l -> none_full scope l.
Proof.
  intros H y Hy. destruct (H y Hy) as [c Hc].
  exists NONE, c. split; [exact Hc | discriminate].
Qed.

Section ScanLemmas.
Variable call : BaseRoute -> Scope -> Outcome.
Variable scope : Scope.

Lemma scan_no_full l partial :
  none_full scope l ->
  scan call scope l (Some partial) = Some partial.
Proof.
  induction l as [|route l IH]; intros Hn; simpl; [reflexivity|].
  destruct (Hn route (or_introl eq_refl)) as (m & child & Hm & Hne).
  rewrite Hm.
  destruct m; try contradiction; apply IH; apply (none_full_tail _ _ _ Hn).
Qed.

Lemma scan_all_none l :
  all_none scope l -> scan call scope l None = None.
Proof.
  induction l as [|route l IH]; intros Hn; simpl; [reflexivity|].
  destruct (Hn route (or_introl eq_refl)) as (child & Hm).
  rewrite Hm. apply IH, (all_none_tail _ _ _ Hn).
Qed.


Lemma scan_first_partial l1 route l2 child :
  all_none scope l1 ->
  matches route scope = Ok (PARTIAL, child) ->
  none_full scope l2 ->
  scan call scope (l1 ++ route :: l2)%list None =
  Some (call route (scope_update scope child)).
Proof.
  induction l1 as [|x l1 IH]; intros Hn Hm Hl2; simpl.
  - rewrite Hm. apply scan_no_full. exact Hl2.
  - destruct (Hn x (or_introl eq_refl)) as (c & Hx).
    rewrite Hx. apply IH; try assumption. apply (all_none_tail _ _ _ Hn).
Qed.

(** An exception of [matches] leaves the loop, whatever was seen
    before. *)
Lemma scan_raise l1 route l2 e partial :
  none_full scope l1 ->
  matches route scope = Raise e ->
  scan call scope (l1 ++ route :: l2)%list partial = Some (Raised e).
Proof.
  revert partial.
  induction l1 as [|x l1 IH]; intros partial Hn Hm; simpl.
  - rewrite Hm. reflexivity.
  - destruct (Hn x (or_introl eq_refl)) as (m & c & Hx & Hne).
    rewrite Hx. pose proof (none_full_tail _ _ _ Hn) as Hn'.
    destruct m; try contradiction; apply IH; assumption.
Qed.
End ScanLemmas.

Lemma none_full_set_router scope self l :
  none_full scope l -> none_full (set_router scope self) l.
Proof. intros H r Hr. rewrite matches_set_router. apply H, Hr. Qed.

Lemma all_none_set_router scope self l :
  all_none scope l -> all_none (set_router scope self) l.
Proof. intros H r Hr. rewrite matches_set_router. apply H, Hr. Qed.

Lemma path_request_asserted scope :
  is_path_request scope = true ->
  negb ((type scope =? "http") || (type scope =? "websocket")
        || (type scope =? "lifespan")) = false.
Proof.
  unfold is_path_request. intros H. rewrite H. reflexivity.
Qed.






Lemma Router_call_partial (self : Router) (scope0 : Scope) l1 route l2 child :
  is_path_request scope0 = true ->
  routes self = (l1 ++ route :: l2)%list ->
  none_full scope0 (routes self) ->
  all_none scope0 l1 ->
  matches route scope0 = Ok (PARTIAL, child) ->
  Router_call self scope0 =
  call_route route (scope_update (set_router scope0 self) child).
Proof.
  intros Hty Hr Hnf Hn Hm.
  unfold Router_call, Router_call_with.
  rewrite (path_request_asserted _ Hty), Hr.
  rewrite (scan_first_partial call_route (set_router scope0 self)
             l1 route l2 child).
  - reflexivity.
  - apply all_none_set_router, Hn.
  - rewrite matches_set_router. exact Hm.
  - apply none_full_set_router. intros y Hy. apply Hnf. rewrite Hr.
    apply in_or_app. right. right. exact Hy.
Qed.

(** An exception of [matches] before any [FULL] answer is the outcome. *)
Lemma Router_call_raise (self : Router) (scope0 : Scope) l1 route l2 e :
  is_path_request scope0 = true ->
  routes self = (l1 ++ route :: l2)%list ->
  none_full scope0 l1 ->
  matches route scope0 = Raise e ->
  Router_call self scope0 = Raised e.
Proof.
  intros Hty Hr Hn Hm.
  unfold Router_call, Router_call_with.
  rewrite (path_request_asserted _ Hty), Hr.
  rewrite (scan_raise call_route (set_router scope0 self) l1 route l2 e None).
  - reflexivity.
  - apply none_full_set_router, Hn.
  - rewrite matches_set_router. exact Hm.
Qed.


(** ** Trailing-slash redirect *)

(** What the second loop finds. *)
Lemma any_match_all_none l scope :
  all_none scope l -> any_match l scope = Ok false.
Proof.
  induction l as [|x l IH]; intros Hn; simpl; [reflexivity|].
  destruct (Hn x (or_introl eq_refl)) as (c & ->). simpl.
  apply IH, (all_none_tail _ _ _ Hn).
Qed.

Lemma any_match_first l1 route l2 scope m child :
  all_none scope l1 ->
  matches route scope = Ok (m, child) -> m <> NONE ->
  any_match (l1 ++ route :: l2)%list scope = Ok true.
Proof.
  induction l1 as [|x l1 IH]; intros Hn Hm Hne; simpl.
  - rewrite Hm. simpl. destruct m; [contradiction | reflexivity | reflexivity].
  - destruct (Hn x (or_introl eq_refl)) as (c & ->). simpl.
    apply IH; try assumption. apply (all_none_tail _ _ _ Hn).
Qed.

Lemma any_match_raise l1 route l2 scope e :
  all_none scope l1 ->
  matches route scope = Raise e ->
  any_match (l1 ++ route :: l2)%list scope = Raise e.
Proof.
  induction l1 as [|x l1 IH]; intros Hn Hm; simpl.
  - rewrite Hm. reflexivity.
  - destruct (Hn x (or_introl eq_refl)) as (c & ->). simpl.
    apply IH; try assumption. apply (all_none_tail _ _ _ Hn).
Qed.

Lemma Router_call_unmatched (self : Router) (scope0 : Scope) :
  all_none scope0 (routes self) ->
  (type scope0 = "http" \/ type scope0 = "websocket") ->
  Router_call self scope0 =
  let scope := set_router scope0 self in
  let redirect_scope := set_path scope (redirect_path_of (path scope0)) in
  if (type scope0 =? "http") && redirect_slashes self
     && negb (redirect_path_of (path scope0) =? "")
  then match any_match (routes self) redirect_scope with
       | Raise e => Raised e
       | Ok true => Respond (RedirectResponse redirect_scope) scope
       | Ok false => default_handling self scope
       end
  else default_handling self scope.
Proof.
  intros Hn Hty. unfold Router_call, Router_call_with, default_handling.
  assert (Ha : negb ((type scope0 =? "http") || (type scope0 =? "websocket")
                     || (type scope0 =? "lifespan")) = false).
  { destruct Hty as [-> | ->]; reflexivity. }
  rewrite Ha, (scan_all_none call_route _ _ (all_none_set_router _ self _ Hn)).
  cbn [type path set_router].
  destruct ((type scope0 =? "http") && redirect_slashes self); [|reflexivity].
  destruct (negb (redirect_path_of (path scope0) =? "")); reflexivity.
Qed.

(** C2 (amended). With redirection enabled and no route answering [FULL] or
    [PARTIAL], an http request is answered by a redirect to the toggled
    path (all trailing slashes stripped when the path ends with one, a
    slash appended otherwise) as soon as that path is not empty and some
    route answers [FULL] or [PARTIAL] on the scope with the toggled path
    (the routes before it answering [NONE]); when the toggled path is empty
    or every route answers [NONE] on it, and for every websocket request,
    the router goes on to its default handling.  The path ["/"] toggles to
    the empty path and is never redirected. *)
Theorem Router_redirect_slashes (self : Router) (scope0 : Scope) :
  all_none scope0 (routes self) ->
  redirect_slashes self = true ->
  let scope := set_router scope0 self in
  let redirect_path := redirect_path_of (path scope0) in
  let redirect_scope := set_path scope redirect_path in
  (type scope0 = "http" ->
   (redirect_path <> "" ->
    forall l1 route l2 m child,
      routes self = (l1 ++ route :: l2)%list ->
      all_none redirect_scope l1 ->
      matches route redirect_scope = Ok (m, child) ->
      m <> NONE ->
      Router_call self scope0 =
      Respond (RedirectResponse redirect_scope) scope)
   /\
   (redirect_path = "" \/ all_none redirect_scope (routes self) ->
    Router_call self scope0 = default_handling self scope))
  /\
  (type scope0 = "websocket" ->
   Router_call self scope0 = default_handling self scope)
  /\
  (path redirect_scope = redirect_path /\
   type redirect_scope = type scope0 /\
   method redirect_scope = method scope0 /\
   headers redirect_scope = headers scope0)
  /\
  (redirect_path =
   if Str.endswith (path scope0) "/" then Str.rstrip (path scope0) "/"
   else path scope0 ++ "/")
  /\
  redirect_path_of "/" = "".
Proof.
  intros Hn Hrs scope redirect_path redirect_scope.
  subst scope redirect_path redirect_scope.
  split; [|split; [|split; [|split; reflexivity]]].
  - intros Hty. split.
    + intros Hne l1 route l2 m child Hr Hl1 Hm Hm'.
      rewrite Router_call_unmatched by (auto).
      cbv zeta. rewrite Hty, Hrs.
      apply String.eqb_neq in Hne. rewrite Hne. cbn [String.eqb andb negb].
      rewrite Hr, (any_match_first l1 route l2 _ m child Hl1 Hm Hm').
      reflexivity.
    + intros Hor.
      rewrite Router_call_unmatched by (auto).
      cbv zeta. rewrite Hty, Hrs.
      destruct Hor as [He | Hany].
      * rewrite He. reflexivity.
      * rewrite (any_match_all_none _ _ Hany).
        destruct (_ && _); reflexivity.
  - intros Hty.
    rewrite Router_call_unmatched by (auto).
    cbv zeta. rewrite Hty. reflexivity.
  - repeat split.
Qed.

(** ** Method mismatch *)

Lemma first_partial_split scope l :
  none_full scope l ->
  (exists route child, In route l /\ matches route scope = Ok (PARTIAL, child)) ->
  exists l1 route l2 child,
    l = (l1 ++ route :: l2)%list /\ all_none scope l1 /\
    matches route scope = Ok (PARTIAL, child).
Proof.
  induction l as [|x l IH]; intros Hnf (route & ch & Hin & Hp); [destruct Hin|].
  destruct (Hnf x (or_introl eq_refl)) as (m & c & Hx & Hne).
  destruct m.
  - destruct Hin as [-> | Hin]; [rewrite Hx in Hp; discriminate|].
    destruct IH as (l1 & r & l2 & child & -> & Hn & Hm).
    + apply (none_full_tail _ _ _ Hnf).
    + exists route, ch. split; assumption.
    + exists (x :: l1), r, l2, child. split; [reflexivity|]. split; [|exact Hm].
      intros y [<- | Hy]; [exists c; exact Hx | apply Hn, Hy].
  - exists [], x, l, c. split; [reflexivity|]. split; [|exact Hx].
    intros y [].
  - contradiction.
Qed.

Lemma Route_call_rejected (r : Route) (scope : Scope) :
  method_rejected (r_methods r) (method scope) = true ->
  Route_call r scope =
  if has_app scope then Raised (HTTPException 405)
  else Respond (PlainTextResponse "Method Not Allowed" 405) scope.
Proof. unfold Route_call. intros ->. reflexivity. Qed.

Lemma method_rejected_nonempty ms m :
  ms <> [] -> set_in m ms = false -> method_rejected (Some ms) m = true.
Proof.
  intros Hne Hin. unfold method_rejected.
  destruct ms; [contradiction|]. rewrite Hin. reflexivity.
Qed.

Lemma Route_matches_not_partial (r : Route) (scope : Scope) child :
  (r_methods r = None \/ r_methods r = Some []) ->
  Route_matches r scope <> Ok (PARTIAL, child).
Proof.
  intros Hm. unfold Route_matches.
  assert (Hrej : method_rejected (r_methods r) (method scope) = false)
    by (destruct Hm as [-> | ->]; reflexivity).
  rewrite Hrej.
  destruct (type scope =? "http"); [|discriminate].
  destruct (Re.match_ _ _); [|discriminate].
  destruct (convert_params _ _); discriminate.
Qed.

Section RouteConstruction.
Context {E : Externals}.

Lemma Route_init_fields path endpoint methods name inc r :
  Route_init path endpoint methods name inc = Ok r ->
  r_methods r =
  match (if isfunction endpoint || ismethod endpoint
         then match methods with None => Some ["GET"] | Some _ => methods end
         else methods) with
  | None => None
  | Some ms =>
      let s := set_of (map Str.upper ms) in
      Some (if set_in "GET" s then set_add "HEAD" s else s)
  end
  /\ r_app r = (if isfunction endpoint || ismethod endpoint
                then request_response endpoint else asgi endpoint)
  /\ r_endpoint r = endpoint
  /\ r_name r = match name with None => get_name endpoint | Some n => n end
  /\ Str.startswith path "/" = true
  /\ compile_path path =
     Ok (r_path_regex r, r_path_format r, r_param_convertors r).
Proof.
  unfold Route_init. destruct (Str.startswith path "/"); [|discriminate].
  destruct (isfunction endpoint || ismethod endpoint);
    (destruct (compile_path path) as [[[rx fmt] cv]|]; simpl; [|discriminate]);
    intros H; injection H as <-; repeat split; reflexivity.
Qed.

(** The constructor raises only where the code does: on a path that does
    not start with a slash, and where [compile_path] raises. *)
Lemma Route_init_returns path endpoint methods name inc c :
  Str.startswith path "/" = true ->
  compile_path path = Ok c ->
  exists r, Route_init path endpoint methods name inc = Ok r.
Proof.
  intros Hs Hc. unfold Route_init. rewrite Hs, Hc. destruct c as [[rx fmt] cv].
  destruct (isfunction endpoint || ismethod endpoint); simpl; eexists; reflexivity.
Qed.

(** C3 (amended). A [Route] whose allowed-methods set is declared and not
    empty answers [PARTIAL] to an http request whose path its pattern
    matches (the groups converting to [params]) and whose method is not in
    the set; the child scope carries the endpoint and the path parameters
    (those of the scope updated with the converted groups).  Awaiting the
    route then gives the method-not-allowed outcome, and so does a router
    that holds the route when none of its routes answers [FULL].  A route
    whose set is empty never answers [PARTIAL] and awaiting it always hands
    over to its application; [Route(path, endpoint, methods=[])] is such a
    route. *)
Theorem Route_method_mismatch (r : Route) :
  (forall (scope : Scope) (ms : list string) (g : Re.groupdict)
          (params : Dict.t value),
     type scope = "http" ->
     Re.match_ (r_path_regex r) (path scope) = Some g ->
     convert_params (r_param_convertors r) g = Ok params ->
     r_methods r = Some ms ->
     ms <> [] ->
     set_in (method scope) ms = false ->
     Route_matches r scope =
       Ok (PARTIAL,
           {| cs_endpoint := Some (AnApp (r_endpoint r));
              cs_path_params :=
                Some (Dict.update (scope_path_params scope) params);
              cs_app_root_path := None; cs_root_path := None;
              cs_path := None |})
     /\
     (forall sc, method sc = method scope ->
        Route_call r sc =
        if has_app sc then Raised (HTTPException 405)
        else Respond (PlainTextResponse "Method Not Allowed" 405) sc)
     /\
     (forall self : Router,
        In (ARoute r) (routes self) ->
        none_full scope (routes self) ->
        method_not_allowed scope (Router_call self scope)))
  /\
  (r_methods r = Some [] ->
   forall scope : Scope,
     (forall child, Route_matches r scope <> Ok (PARTIAL, child)) /\
     Route_call r scope = Await (r_app r) scope)
  /\
  (forall path endpoint name inc,
     Route_init path endpoint (Some []) name inc = Ok r ->
     r_methods r = Some []).
Proof.
  split; [|split].
  - intros scope ms g params Hty Hg Hcv Hms Hne Hin.
    assert (Hrej : method_rejected (r_methods r) (method scope) = true).
    { rewrite Hms. apply method_rejected_nonempty; assumption. }
    assert (Hm : Route_matches r scope =
      Ok (PARTIAL,
          {| cs_endpoint := Some (AnApp (r_endpoint r));
             cs_path_params :=
               Some (Dict.update (scope_path_params scope) params);
             cs_app_root_path := None; cs_root_path := None;
             cs_path := None |})).
    { unfold Route_matches. rewrite Hty, Hg, Hcv, Hrej. reflexivity. }
    split; [exact Hm|]. split.
    + intros sc Hsc. apply Route_call_rejected. rewrite Hsc. exact Hrej.
    + intros self Hr Hnf.
      destruct (first_partial_split scope (routes self) Hnf)
        as (l1 & route & l2 & child & Hl & Hn & Hp).
      { exists (ARoute r). eexists. split; [exact Hr|]. simpl. exact Hm. }
      assert (Hpr : is_path_request scope = true).
      { unfold is_path_request. rewrite Hty. reflexivity. }
      rewrite (Router_call_partial self scope l1 route l2 child Hpr Hl Hnf Hn Hp).
      destruct (matches_partial_is_route _ _ _ Hp) as (r' & -> & Hrej').
      simpl. rewrite Route_call_rejected by exact Hrej'.
      unfold method_not_allowed. simpl.
      destruct (has_app scope); [reflexivity|]. eexists. reflexivity.
  - intros Hms scope. split.
    + intros child. apply Route_matches_not_partial. right. exact Hms.
    + unfold Route_call. rewrite Hms. reflexivity.
  - intros path endpoint name inc Hi.
    destruct (Route_init_fields _ _ _ _ _ _ Hi) as (Hm & _).
    rewrite Hm. destruct (isfunction endpoint || ismethod endpoint); reflexivity.
Qed.

(** ** Default methods *)

(** C9. Built from a function or method endpoint without a [methods]
    argument, a [Route] allows exactly GET and HEAD; built from any other
    endpoint (a class, an ASGI instance) without a [methods] argument, it
    has no allowed-methods set: [matches] never answers [PARTIAL] and
    awaiting the route always hands over to the endpoint. *)
Theorem Route_default_methods (path : string) (endpoint : Callable)
  (name : option string) (inc : bool) (r : Route) :
  Route_init path endpoint None name inc = Ok r ->
  (isfunction endpoint || ismethod endpoint = true ->
   r_methods r = Some ["GET"; "HEAD"])
  /\
  (isfunction endpoint || ismethod endpoint = false ->
   r_methods r = None /\
   (forall scope child, Route_matches r scope <> Ok (PARTIAL, child)) /\
   (forall scope, Route_call r scope = Await (asgi endpoint) scope)).
Proof.
  intros Hi. destruct (Route_init_fields _ _ _ _ _ _ Hi) as (Hm & Ha & _).
  split; intros Hk; rewrite Hk in Hm, Ha.
  - exact Hm.
  - split; [exact Hm|]. split.
    + intros scope child. apply Route_matches_not_partial. left. exact Hm.
    + intros scope. unfold Route_call. rewrite Hm, Ha. reflexivity.
Qed.

End RouteConstruction.

(** ** Strings *)

Lemma append_nil_r (s : string) : s ++ "" = s.
Proof. induction s as [|c s IH]; simpl; [reflexivity | rewrite IH; reflexivity]. Qed.

Lemma append_assoc (a b c : string) : (a ++ b) ++ c = a ++ (b ++ c).
Proof. induction a as [|x a IH]; simpl; [reflexivity | rewrite IH; reflexivity]. Qed.

Lemma length_append (a b : string) :
  String.length (a ++ b) = String.length a + String.length b.
Proof. induction a as [|x a IH]; simpl; [reflexivity | rewrite IH; reflexivity]. Qed.

Lemma append_cancel_l (a b c : string) : a ++ b = a ++ c -> b = c.
Proof.
  induction a as [|x a IH]; simpl; intros H; [exact H|].
  injection H as H. apply IH, H.
Qed.


Lemma drop_app (a b : string) : Str.drop (String.length a) (a ++ b) = b.
Proof. induction a as [|x a IH]; simpl; [destruct b; reflexivity | exact IH]. Qed.


Lemma prefix_nil_l (s : string) : String.prefix "" s = true.
Proof. destruct s; reflexivity. Qed.

Lemma prefix_app (p s : string) : String.prefix p (p ++ s) = true.
Proof.
  induction p as [|c p IH]; simpl; [apply prefix_nil_l|].
  destruct (ascii_dec c c); [exact IH | contradiction].
Qed.

Lemma prefix_split (p s : string) :
  String.prefix p s = true -> exists t, s = p ++ t.
Proof.
  revert s. induction p as [|c p IH]; intros s H.
  - exists s. reflexivity.
  - destruct s as [|d s]; simpl in H; [discriminate|].
    destruct (ascii_dec c d) as [->|]; [|discriminate].
    destruct (IH s H) as [t ->]. exists t. reflexivity.
Qed.

Lemma prefix_cons (c d : ascii) (p s : string) :
  String.prefix (String c p) (String d s) =
  Ascii.eqb c d && String.prefix p s.
Proof.
  simpl. destruct (ascii_dec c d) as [->|Hn].
  - rewrite Ascii.eqb_refl. reflexivity.
  - apply Ascii.eqb_neq in Hn. rewrite Hn. reflexivity.
Qed.

Lemma contains_unfold (p s : string) :
  Str.contains p s =
  String.prefix p s ||
  match s with "" => false | String _ s' => Str.contains p s' end.
Proof. destruct s; reflexivity. Qed.

Lemma contains_app (x p y : string) : Str.contains p (x ++ p ++ y) = true.
Proof.
  induction x as [|c x IH].
  - change ("" ++ p ++ y) with (p ++ y).
    rewrite contains_unfold, prefix_app. reflexivity.
  - change (String c x ++ p ++ y) with (String c (x ++ p ++ y)).
    rewrite contains_unfold, IH. apply orb_true_r.
Qed.

Lemma contains_split (p s : string) :
  Str.contains p s = true -> exists x y, s = x ++ p ++ y.
Proof.
  induction s as [|c s IH]; intros H; rewrite contains_unfold in H.
  - rewrite orb_false_r in H.
    destruct (prefix_split _ _ H) as [t Ht]. exists "", t. exact Ht.
  - apply orb_true_iff in H. destruct H as [H | H].
    + destruct (prefix_split _ _ H) as [t Ht]. exists "", t. exact Ht.
    + destruct (IH H) as (x & y & ->). exists (String c x), y. reflexivity.
Qed.

(** ** The matcher is sound *)









(** ** The scanner *)

Lemma ident_char_nobrace c :
  ident_char c = true -> Ascii.eqb c "{" = false /\ Ascii.eqb c "}" = false.
Proof.
  intros H. split; apply Ascii.eqb_neq; intros ->; vm_compute in H; discriminate.
Qed.

Lemma ident_start_char c : ident_start c = true -> ident_char c = true.
Proof. unfold ident_char. intros ->. reflexivity. Qed.

Lemma mem_app c a b : Str.mem c (a ++ b) = Str.mem c a || Str.mem c b.
Proof.
  induction a as [|x a IH]; simpl; [reflexivity|].
  rewrite IH. apply orb_assoc.
Qed.

Lemma ident_run_spec s :
  nobrace (ident_run s) /\
  s = ident_run s ++ Str.drop (String.length (ident_run s)) s.
Proof.
  induction s as [|c s [[IH1 IH2] IH3]]; simpl.
  - repeat split.
  - destruct (ident_char c) eqn:Hc; simpl; [|repeat split].
    destruct (ident_char_nobrace _ Hc) as [H1 H2].
    unfold nobrace. simpl. rewrite H1, H2, IH1, IH2, <- IH3. repeat split.
Qed.

Lemma identifier_spec s id rest :
  identifier s = Some (id, rest) -> nobrace id /\ s = id ++ rest.
Proof.
  destruct s as [|c s]; simpl; [discriminate|].
  destruct (ident_start c) eqn:Hc; [|discriminate].
  intros H. injection H as <- <-.
  destruct (ident_run_spec s) as [[H1 H2] H3].
  destruct (ident_char_nobrace _ (ident_start_char _ Hc)) as [Hb1 Hb2].
  unfold nobrace. simpl. rewrite Hb1, Hb2, H1, H2, <- H3. repeat split.
Qed.

Lemma param_at_spec s n ty len :
  param_at s = Some (n, ty, len) ->
  nobrace n /\ len <= String.length s /\ 1 <= len.
Proof.
  destruct s as [|c s1]; simpl; [discriminate|].
  destruct (Ascii.eqb c "{"); [|discriminate].
  destruct (identifier s1) as [[pn [|d s2]]|] eqn:Hi; try discriminate.
  destruct (identifier_spec _ _ _ Hi) as [Hn ->].
  destruct (Ascii.eqb d "}").
  - intros H. injection H as <- <- <-. split; [exact Hn|].
    rewrite length_append. simpl. lia.
  - destruct (Ascii.eqb d ":"); [|discriminate].
    destruct (identifier s2) as [[ct [|e s3]]|] eqn:Hj; try discriminate.
    destruct (identifier_spec _ _ _ Hj) as [_ ->].
    destruct (Ascii.eqb e "}"); [|discriminate].
    intros H. injection H as <- <- <-. split; [exact Hn|].
    rewrite length_append. simpl. rewrite length_append. simpl. lia.
Qed.

Lemma finditer_names s : forall k n ty,
  In (TParam n ty) (finditer k s) -> nobrace n.
Proof.
  induction s as [|c s IH]; intros k n ty Hin; cbn [finditer] in Hin; [destruct Hin|].
  destruct k as [|k]; [|exact (IH _ _ _ Hin)].
  destruct (param_at (String c s)) as [[[pn pt] len]|] eqn:Hp.
  - destruct Hin as [Hd | Hin]; [|exact (IH _ _ _ Hin)].
    injection Hd as <- <-. exact (proj1 (param_at_spec _ _ _ _ Hp)).
  - destruct Hin as [Hd | Hin]; [discriminate | exact (IH _ _ _ Hin)].
Qed.

Lemma ident_run_app_slash s t :
  ident_run (s ++ String "/" t) = ident_run s.
Proof.
  induction s as [|c s IH]; simpl; [reflexivity|].
  destruct (ident_char c); [rewrite IH|]; reflexivity.
Qed.

Lemma ident_run_length s : String.length (ident_run s) <= String.length s.
Proof.
  induction s as [|c s IH]; simpl; [lia|].
  destruct (ident_char c); simpl; lia.
Qed.

Lemma drop_app_le n (a b : string) :
  n <= String.length a -> Str.drop n (a ++ b) = Str.drop n a ++ b.
Proof.
  revert a. induction n as [|n IH]; intros a Hn.
  - destruct a; destruct b; reflexivity.
  - destruct a as [|c a]; simpl in *; [lia|]. apply IH. lia.
Qed.

Lemma identifier_app_slash s t :
  identifier (s ++ String "/" t) =
  match identifier s with
  | Some (id, rest) => Some (id, rest ++ String "/" t)
  | None => None
  end.
Proof.
  destruct s as [|c s]; simpl; [reflexivity|].
  destruct (ident_start c); [|reflexivity].
  rewrite ident_run_app_slash, drop_app_le by apply ident_run_length.
  reflexivity.
Qed.

Lemma param_at_app_slash s t :
  s <> "" -> param_at (s ++ String "/" t) = param_at s.
Proof.
  destruct s as [|c s1]; [contradiction|]. intros _. simpl.
  destruct (Ascii.eqb c "{"); [|reflexivity].
  rewrite identifier_app_slash.
  destruct (identifier s1) as [[pn [|d s2]]|]; simpl; try reflexivity.
  destruct (Ascii.eqb d "}"); [reflexivity|].
  destruct (Ascii.eqb d ":"); [|reflexivity].
  rewrite identifier_app_slash.
  destruct (identifier s2) as [[ct [|e s3]]|]; simpl; reflexivity.
Qed.

Lemma finditer_app_slash u t : forall k,
  k <= String.length u ->
  finditer k (u ++ String "/" t)
  = (finditer k u ++ finditer 0 (String "/" t))%list.
Proof.
  induction u as [|c u IH]; intros k Hk.
  - simpl in Hk. replace k with 0 by lia. reflexivity.
  - change (String c u ++ String "/" t) with (String c (u ++ String "/" t)).
    cbn [finditer]. destruct k as [|k].
    + change (String c (u ++ String "/" t)) with (String c u ++ String "/" t).
      rewrite param_at_app_slash by discriminate.
      destruct (param_at (String c u)) as [[[pn pt] len]|] eqn:Hp.
      * destruct (param_at_spec _ _ _ _ Hp) as (_ & Hl & _). simpl in Hl.
        rewrite IH by lia. reflexivity.
      * rewrite IH by lia. reflexivity.
    + simpl in Hk. apply IH. lia.
Qed.

(** ** [str.replace] on placeholders *)

Lemma replace_skip old new (u : string) : forall k s,
  Str.replace_aux old new (String.length u + k) (u ++ s)
  = Str.replace_aux old new k s.
Proof.
  induction u as [|c u IH]; intros k s; simpl; [reflexivity | apply IH].
Qed.

Lemma clean_cons c u :
  clean (String c u) <-> Ascii.eqb c "{" = false /\ clean u.
Proof. unfold clean. simpl. apply orb_false_iff. Qed.

Lemma clean_app a b : clean (a ++ b) <-> clean a /\ clean b.
Proof. unfold clean. rewrite mem_app. apply orb_false_iff. Qed.

Lemma nobrace_cons c u :
  nobrace (String c u) <->
  (Ascii.eqb c "{" = false /\ Ascii.eqb c "}" = false) /\ nobrace u.
Proof.
  unfold nobrace. simpl. rewrite !orb_false_iff. tauto.
Qed.

Lemma nobrace_clean_close k : nobrace k -> clean (k ++ "}").
Proof. intros [H _]. apply clean_app. split; [exact H | reflexivity]. Qed.

Lemma replace_clean body new (u : string) : forall s,
  clean u ->
  Str.replace_aux (String "{" body) new 0 (u ++ s)
  = u ++ Str.replace_aux (String "{" body) new 0 s.
Proof.
  induction u as [|c u IH]; intros s Hu; [reflexivity|].
  apply clean_cons in Hu. destruct Hu as [Hc Hu].
  change (String c u ++ s) with (String c (u ++ s)).
  cbn [Str.replace_aux]. rewrite prefix_cons, Ascii.eqb_sym, Hc. simpl.
  rewrite IH by exact Hu. reflexivity.
Qed.

Lemma hole_app k s : hole k ++ s = String "{" ((k ++ "}") ++ s).
Proof. reflexivity. Qed.

Lemma replace_hit k v s :
  Str.replace_aux (hole k) v 0 (hole k ++ s)
  = v ++ Str.replace_aux (hole k) v 0 s.
Proof.
  rewrite hole_app. cbn [Str.replace_aux].
  rewrite <- hole_app, prefix_app.
  f_equal.
  assert (Hl : String.length (hole k) - 1 = String.length (k ++ "}") + 0)
    by (unfold hole; simpl; lia).
  rewrite Hl. apply replace_skip.
Qed.

Lemma prefix_close_eq k : forall n s,
  nobrace k -> nobrace n ->
  String.prefix (k ++ "}") ((n ++ "}") ++ s) = true -> k = n.
Proof.
  induction k as [|c k IH]; intros [|d n] s Hk Hn H.
  - reflexivity.
  - apply nobrace_cons in Hn. destruct Hn as [[_ Hd] _].
    simpl (_ ++ _) in H. rewrite prefix_cons in H.
    apply andb_true_iff in H. destruct H as [H _].
    rewrite Ascii.eqb_sym, Hd in H. discriminate.
  - apply nobrace_cons in Hk. destruct Hk as [[_ Hc] _].
    simpl (_ ++ _) in H. rewrite prefix_cons in H.
    apply andb_true_iff in H. destruct H as [H _].
    rewrite Hc in H. discriminate.
  - apply nobrace_cons in Hk. destruct Hk as [_ Hk].
    apply nobrace_cons in Hn. destruct Hn as [_ Hn].
    simpl (_ ++ _) in H. rewrite prefix_cons in H.
    apply andb_true_iff in H. destruct H as [Hcd H].
    apply Ascii.eqb_eq in Hcd. subst d. f_equal. exact (IH n s Hk Hn H).
Qed.

Lemma replace_miss k n v s :
  k <> n -> nobrace k -> nobrace n ->
  Str.replace_aux (hole k) v 0 (hole n ++ s)
  = hole n ++ Str.replace_aux (hole k) v 0 s.
Proof.
  intros Hne Hk Hn. rewrite !hole_app. cbn [Str.replace_aux].
  unfold hole at 1. change ("{" ++ k ++ "}") with (String "{" (k ++ "}")).
  rewrite prefix_cons.
  destruct (String.prefix (k ++ "}") ((n ++ "}") ++ s)) eqn:Hp.
  - exfalso. apply Hne. exact (prefix_close_eq k n s Hk Hn Hp).
  - rewrite andb_false_r. f_equal.
    apply (replace_clean (k ++ "}") v (n ++ "}") s).
    apply nobrace_clean_close, Hn.
Qed.

Lemma prefix_length p s :
  String.prefix p s = true -> String.length p <= String.length s.
Proof.
  intros H. destruct (prefix_split _ _ H) as [t ->].
  rewrite length_append. lia.
Qed.

Lemma prefix_before_brace body : forall x t,
  clean body ->
  t = "" \/ (exists t', t = String "{" t') ->
  String.prefix body (x ++ t) = String.prefix body x.
Proof.
  induction body as [|b body IH]; intros x t Hb Ht.
  - rewrite !prefix_nil_l. reflexivity.
  - apply clean_cons in Hb. destruct Hb as [Hb Hbody].
    destruct x as [|d x].
    + destruct Ht as [-> | [t' ->]]; [reflexivity|].
      simpl ("" ++ _). rewrite prefix_cons, Hb. reflexivity.
    + simpl (_ ++ _). rewrite !prefix_cons, IH by assumption. reflexivity.
Qed.

Lemma replace_before_brace body new (x : string) : forall skip t,
  clean body ->
  t = "" \/ (exists t', t = String "{" t') ->
  skip <= String.length x ->
  Str.replace_aux (String "{" body) new skip (x ++ t)
  = Str.replace_aux (String "{" body) new skip x
    ++ Str.replace_aux (String "{" body) new 0 t.
Proof.
  induction x as [|c x IH]; intros skip t Hb Ht Hs.
  - simpl in Hs. replace skip with 0 by lia. reflexivity.
  - change (String c x ++ t) with (String c (x ++ t)).
    cbn [Str.replace_aux]. destruct skip as [|k].
    + rewrite !prefix_cons, (prefix_before_brace body x t Hb Ht).
      destruct (Ascii.eqb "{" c && String.prefix body x) eqn:Hp.
      * apply andb_true_iff in Hp. destruct Hp as [_ Hp].
        apply prefix_length in Hp.
        rewrite IH by (try assumption; simpl; lia).
        rewrite append_assoc. reflexivity.
      * rewrite IH by (try assumption; lia). reflexivity.
    + simpl in Hs. apply IH; try assumption. lia.
Qed.

Lemma contains_replace n k v s :
  k <> n -> nobrace k -> nobrace n ->
  Str.contains (hole n) s = true ->
  Str.contains (hole n) (Str.replace s (hole k) v) = true.
Proof.
  intros Hne Hk Hn Hc.
  destruct (contains_split _ _ Hc) as (x & y & ->).
  unfold Str.replace.
  change (hole k) with (String "{" (k ++ "}")).
  rewrite (replace_before_brace (k ++ "}") v x 0 (hole n ++ y)).
  - change (String "{" (k ++ "}")) with (hole k).
    rewrite replace_miss by assumption. apply contains_app.
  - apply nobrace_clean_close, Hk.
  - right. eexists. apply hole_app.
  - lia.
Qed.

(** ** [compile_path] in terms of the tokens of the template *)

Lemma existsb_eqb_In x l : existsb (String.eqb x) l = true <-> In x l.
Proof.
  rewrite existsb_exists. split.
  - intros (y & Hy & He). apply String.eqb_eq in He. subst y. exact Hy.
  - intros H. exists x. split; [exact H | apply String.eqb_refl].
Qed.

Lemma has_dup_NoDup l : Re.has_dup l = false -> NoDup l.
Proof.
  induction l as [|x l IH]; simpl; intros H; [constructor|].
  apply orb_false_iff in H. destruct H as [Hx Hd].
  constructor; [|apply IH, Hd].
  intros Hin. apply existsb_eqb_In in Hin. rewrite Hin in Hx. discriminate.
Qed.

Lemma NoDup_has_dup l : NoDup l -> Re.has_dup l = false.
Proof.
  induction 1 as [|x l Hx Hnd IH]; simpl; [reflexivity|].
  rewrite IH, orb_false_r.
  destruct (existsb (String.eqb x) l) eqn:He; [|reflexivity].
  apply existsb_eqb_In in He. contradiction.
Qed.

Lemma dict_set_fresh {V} (k : string) (v : V) (d : Dict.t V) :
  ~ In k (Dict.keys d) -> Dict.set k v d = (d ++ [(k, v)])%list.
Proof.
  induction d as [|[k' v'] d IH]; simpl; intros Hn; [reflexivity|].
  destruct (String.eqb_spec k' k) as [->|Hne].
  - exfalso. apply Hn. left. reflexivity.
  - rewrite IH; [reflexivity|]. intros Hin. apply Hn. right. exact Hin.
Qed.

Lemma keys_app {V} (a b : Dict.t V) :
  Dict.keys (a ++ b)%list = (Dict.keys a ++ Dict.keys b)%list.
Proof. unfold Dict.keys. apply map_app. Qed.

Lemma in_keys_set {V} (x k : string) (v : V) (d : Dict.t V) :
  In x (Dict.keys (Dict.set k v d)) <-> x = k \/ In x (Dict.keys d).
Proof.
  induction d as [|[k' v'] d IH]; simpl.
  - split; [intros [<-|[]]; left; reflexivity | intros [->|[]]; left; reflexivity].
  - destruct (String.eqb_spec k' k) as [->|Hne]; simpl.
    + split; [intros H; right; exact H | intros [->|H]; [left; reflexivity | exact H]].
    + rewrite IH. tauto.
Qed.

Lemma get_set_same {V} (k : string) (v : V) (d : Dict.t V) :
  Dict.get k (Dict.set k v d) = Some v.
Proof.
  induction d as [|[k' v'] d IH]; simpl; [rewrite String.eqb_refl; reflexivity|].
  destruct (String.eqb_spec k' k) as [->|Hne]; simpl.
  - rewrite String.eqb_refl. reflexivity.
  - apply String.eqb_neq in Hne. rewrite Hne. exact IH.
Qed.

Lemma get_set_other {V} (k x : string) (v : V) (d : Dict.t V) :
  x <> k -> Dict.get x (Dict.set k v d) = Dict.get x d.
Proof.
  intros Hx. induction d as [|[k' v'] d IH]; simpl.
  - destruct (String.eqb_spec k x) as [->|_]; [contradiction | reflexivity].
  - destruct (String.eqb_spec k' k) as [->|Hne]; simpl.
    + destruct (String.eqb_spec k x) as [->|_]; [contradiction | reflexivity].
    + rewrite IH. reflexivity.
Qed.

Lemma get_in_keys {V} (k : string) (d : Dict.t V) :
  In k (Dict.keys d) -> exists v, Dict.get k d = Some v /\ In (k, v) d.
Proof.
  induction d as [|[k' v'] d IH]; simpl; intros Hin; [destruct Hin|].
  destruct (String.eqb_spec k' k) as [->|Hne].
  - exists v'. split; [reflexivity | left; reflexivity].
  - destruct Hin as [He | Hin]; [contradiction|].
    destruct (IH Hin) as (v & Hg & Hi). exists v. split; [exact Hg | right; exact Hi].
Qed.

Lemma get_some_in_keys {V} (k : string) (d : Dict.t V) v :
  Dict.get k d = Some v -> In k (Dict.keys d).
Proof.
  induction d as [|[k' v'] d IH]; simpl; [discriminate|].
  destruct (String.eqb_spec k' k) as [->|Hne]; [left; reflexivity|].
  intros H. right. apply IH, H.
Qed.

Lemma get_none_not_in {V} (k : string) (d : Dict.t V) :
  Dict.get k d = None <-> ~ In k (Dict.keys d).
Proof.
  split.
  - intros Hg Hin. destruct (get_in_keys k d Hin) as (v & Hv & _). congruence.
  - intros Hn. destruct (Dict.get k d) eqn:Hg; [|reflexivity].
    exfalso. apply Hn. apply (get_some_in_keys _ _ _ Hg).
Qed.


Lemma param_names_in toks n :
  In n (param_names toks) <-> exists ty, In (TParam n ty) toks.
Proof.
  induction toks as [|[c|n' ty] ts IH]; simpl.
  - split; [intros [] | intros [ty []]].
  - rewrite IH. split; intros [ty H]; exists ty; [right; exact H|].
    destruct H as [H|H]; [discriminate | exact H].
  - rewrite IH. split.
    + intros [<- | [ty' H]]; [exists ty; left; reflexivity | exists ty'; right; exact H].
    + intros [ty' [H|H]]; [injection H as -> _; left; reflexivity|].
      right. exists ty'. exact H.
Qed.

Lemma param_names_app a b :
  param_names (a ++ b)%list = (param_names a ++ param_names b)%list.
Proof.
  induction a as [|[c|n ty] a IH]; simpl; [reflexivity | exact IH |].
  rewrite IH. reflexivity.
Qed.


Section CompilePath.
Context {E : Externals}.

Lemma fold_compile_raise toks e :
  fold_left compile_step toks (Raise e) = Raise e.
Proof. induction toks as [|t ts IH]; simpl; [reflexivity | exact IH]. Qed.

Lemma compile_fold toks : forall st0 st,
  fold_left compile_step toks (Ok st0) = Ok st ->
  c_regex st = (c_regex st0 ++ src_of toks)%list /\
  c_format st = c_format st0 ++ format_of toks /\
  c_convertors st =
    fold_left (fun d t => match t with
                          | TParam n ty => Dict.set n (convertor_of ty) d
                          | TLit _ => d
                          end) toks (c_convertors st0) /\
  (forall n ty, In (TParam n ty) toks -> Dict.get ty CONVERTOR_TYPES <> None).
Proof.
  induction toks as [|t ts IH]; intros st0 st H.
  - injection H as <-. simpl. rewrite app_nil_r, append_nil_r.
    repeat split. intros n ty [].
  - destruct t as [c | n ty]; cbn [fold_left compile_step bind] in H.
    + destruct (IH _ _ H) as (Hr & Hf & Hc & Hk).
      cbn [c_regex c_format c_convertors] in Hr, Hf, Hc.
      split; [rewrite Hr, <- app_assoc; reflexivity|].
      split; [rewrite Hf, append_assoc; reflexivity|].
      split; [exact Hc|].
      intros n ty [Hd | Hin]; [discriminate | exact (Hk n ty Hin)].
    + destruct (Dict.get ty CONVERTOR_TYPES) as [cv|] eqn:Hty.
      * destruct (IH _ _ H) as (Hr & Hf & Hc & Hk).
        cbn [c_regex c_format c_convertors] in Hr, Hf, Hc.
        assert (Hcv : convertor_of ty = cv)
          by (unfold convertor_of; rewrite Hty; reflexivity).
        split; [rewrite Hr, <- app_assoc; cbn [src_of]; rewrite Hcv; reflexivity|].
        split.
        { rewrite Hf. cbn [format_of]. rewrite !append_assoc. reflexivity. }
        split; [cbn [fold_left]; rewrite Hcv; exact Hc|].
        intros n' ty' [Hd | Hin]; [|exact (Hk n' ty' Hin)].
        injection Hd as <- <-. rewrite Hty. discriminate.
      * rewrite fold_compile_raise in H. discriminate.
Qed.

(** The loop goes through whenever every type is registered. *)
Lemma compile_fold_ok toks : forall st0,
  (forall n ty, In (TParam n ty) toks -> Dict.get ty CONVERTOR_TYPES <> None) ->
  exists st, fold_left compile_step toks (Ok st0) = Ok st.
Proof.
  induction toks as [|t ts IH]; intros st0 Hk.
  - exists st0. reflexivity.
  - destruct t as [c | n ty]; cbn [fold_left compile_step bind].
    + apply IH. intros n ty Hin. apply (Hk n ty). right. exact Hin.
    + destruct (Dict.get ty CONVERTOR_TYPES) as [cv|] eqn:Hty.
      * apply IH. intros n' ty' Hin. apply (Hk n' ty'). right. exact Hin.
      * exfalso. apply (Hk n ty); [left; reflexivity | exact Hty].
Qed.

(** An unregistered type is an [AssertionError]. *)
Lemma compile_fold_unregistered toks : forall st0 n ty,
  In (TParam n ty) toks -> Dict.get ty CONVERTOR_TYPES = None ->
  fold_left compile_step toks (Ok st0) = Raise AssertionError.
Proof.
  induction toks as [|t ts IH]; intros st0 n ty Hin Hty; [destruct Hin|].
  destruct t as [c | n' ty']; cbn [fold_left compile_step bind].
  - destruct Hin as [Hd | Hin]; [discriminate|]. apply (IH _ n ty Hin Hty).
  - destruct (Dict.get ty' CONVERTOR_TYPES) as [cv|] eqn:Hty'.
    + destruct Hin as [Hd | Hin]; [|apply (IH _ n ty Hin Hty)].
      injection Hd as <- <-. congruence.
    + apply fold_compile_raise.
Qed.

Lemma group_names_src toks : Re.group_names (src_of toks) = param_names toks.
Proof.
  induction toks as [|[c|n ty] ts IH]; simpl; [reflexivity | exact IH |].
  rewrite IH. reflexivity.
Qed.


Lemma fold_set_keys toks : forall d0 x,
  In x (Dict.keys
          (fold_left (fun d t => match t with
                                 | TParam n ty => Dict.set n (convertor_of ty) d
                                 | TLit _ => d
                                 end) toks d0))
  <-> In x (Dict.keys d0) \/ In x (param_names toks).
Proof.
  induction toks as [|[c|n ty] ts IH]; intros d0 x; simpl.
  - tauto.
  - apply IH.
  - rewrite IH, in_keys_set. intuition congruence.
Qed.

Lemma convertors_of_keys toks x :
  In x (Dict.keys (convertors_of toks)) <-> In x (param_names toks).
Proof.
  unfold convertors_of. rewrite fold_set_keys. simpl. tauto.
Qed.

Lemma fold_set_params toks : forall d0,
  NoDup (Dict.keys d0 ++ param_names toks)%list ->
  fold_left (fun d t => match t with
                        | TParam n ty => Dict.set n (convertor_of ty) d
                        | TLit _ => d
                        end) toks d0 = (d0 ++ params_of toks)%list.
Proof.
  induction toks as [|[c|n ty] ts IH]; intros d0 Hnd; simpl.
  - rewrite app_nil_r. reflexivity.
  - apply IH. exact Hnd.
  - simpl in Hnd. rewrite dict_set_fresh.
    + rewrite IH.
      * rewrite <- app_assoc. reflexivity.
      * rewrite keys_app. simpl. rewrite <- app_assoc. exact Hnd.
    + apply NoDup_remove_2 in Hnd. intros Hin. apply Hnd.
      apply in_or_app. left. exact Hin.
Qed.

Lemma convertors_of_NoDup toks :
  NoDup (param_names toks) -> convertors_of toks = params_of toks.
Proof. intros H. apply (fold_set_params toks []). exact H. Qed.

Lemma params_of_get toks n ty :
  NoDup (param_names toks) -> In (TParam n ty) toks ->
  Dict.get n (params_of toks) = Some (convertor_of ty).
Proof.
  induction toks as [|[c|n' ty'] ts IH]; simpl; intros Hnd Hin.
  - destruct Hin.
  - destruct Hin as [Hd|Hin]; [discriminate | exact (IH Hnd Hin)].
  - inversion Hnd as [|? ? Hx Hnd']; subst.
    destruct Hin as [Hd|Hin].
    + injection Hd as -> ->. rewrite String.eqb_refl. reflexivity.
    + destruct (String.eqb_spec n' n) as [->|Hne].
      * exfalso. apply Hx. apply param_names_in. exists ty. exact Hin.
      * exact (IH Hnd' Hin).
Qed.

(** Each placeholder has the convertor registered under the type it
    names. *)
Lemma convertors_of_get toks n ty :
  NoDup (param_names toks) -> In (TParam n ty) toks ->
  Dict.get ty CONVERTOR_TYPES <> None ->
  Dict.get n (convertors_of toks) = Dict.get ty CONVERTOR_TYPES.
Proof.
  intros Hnd Hin Hty. rewrite (convertors_of_NoDup _ Hnd).
  rewrite (params_of_get _ _ _ Hnd Hin). unfold convertor_of.
  destruct (Dict.get ty CONVERTOR_TYPES); [reflexivity | contradiction].
Qed.

(** A template of ordinary characters and placeholders of the string or
    path type is read in [Re.parse]. *)
Lemma special_not_quantifier c : Re.special c = false -> Re.is_quantifier c = false.
Proof.
  destruct c as [[] [] [] [] [] [] [] []]; vm_compute; congruence.
Qed.

Lemma regex_std ty :
  std_type ty = true -> Re.parse_body (regex (convertor_of ty)) = Some (body_of ty).
Proof.
  unfold std_type, convertor_of, CONVERTOR_TYPES, body_of. cbn [Dict.get].
  rewrite (String.eqb_sym "str" ty), (String.eqb_sym "path" ty).
  destruct (String.eqb_spec ty "str") as [->|Hs]; [reflexivity|].
  destruct (String.eqb_spec ty "path") as [->|Hp]; [reflexivity | discriminate].
Qed.

Lemma parse_plain toks :
  plain_text toks -> std_types toks ->
  Re.parse (src_of toks) = Some (pieces_of toks).
Proof.
  induction toks as [|t ts IH]; intros Hp Hs; [reflexivity|].
  assert (IH' : Re.parse (src_of ts) = Some (pieces_of ts)).
  { apply IH.
    - intros c Hc. apply Hp. right. exact Hc.
    - intros n ty Hin. apply (Hs n ty). right. exact Hin. }
  destruct t as [c | n ty]; cbn [src_of pieces_of Re.parse].
  - rewrite (Hp c (or_introl eq_refl)).
    destruct ts as [|[q|n ty] ts']; cbn [src_of].
    + reflexivity.
    + rewrite (special_not_quantifier q) by (apply Hp; right; left; reflexivity).
      cbn [src_of] in IH'. rewrite IH'. reflexivity.
    + cbn [src_of] in IH'. rewrite IH'. reflexivity.
  - rewrite (regex_std ty) by (apply (Hs n ty); left; reflexivity).
    rewrite IH'. reflexivity.
Qed.

(** What [compile_path] returns: the format and the convertors are read
    off the tokens of the template; the pattern is the one read in
    [Re.parse] when the text is in that fragment (no name occurs twice
    then), and else the one [re.compile] returns. *)
Lemma compile_path_ok path p fmt convs :
  compile_path path = Ok (p, fmt, convs) ->
  let toks := finditer 0 path in
  fmt = format_of toks /\
  convs = convertors_of toks /\
  (forall n ty, In (TParam n ty) toks -> Dict.get ty CONVERTOR_TYPES <> None) /\
  Re.compile re_compile (src_of toks) = Ok p /\
  match Re.parse (src_of toks) with
  | Some pcs => p = Re.Frag pcs /\ NoDup (param_names toks)
  | None => exists run, re_compile (Re.render (src_of toks)) = Ok run /\
                        p = Re.Foreign run
  end.
Proof.
  unfold compile_path. set (toks := finditer 0 path).
  destruct (fold_left compile_step toks _) as [st|] eqn:Hf; simpl; [|discriminate].
  destruct (compile_fold _ _ _ Hf) as (Hr & Hfm & Hc & Hk).
  simpl in Hr, Hfm, Hc. rewrite Hr.
  destruct (Re.compile re_compile (src_of toks)) as [p'|] eqn:Hcomp;
    simpl; [|discriminate].
  intros H. injection H as <- <- <-.
  repeat split; try assumption.
  unfold Re.compile in Hcomp.
  destruct (Re.parse (src_of toks)) as [pcs|].
  - destruct (Re.has_dup (Re.group_names (src_of toks))) eqn:Hd; [discriminate|].
    injection Hcomp as <-. split; [reflexivity|].
    apply has_dup_NoDup in Hd. rewrite group_names_src in Hd. exact Hd.
  - destruct (re_compile (Re.render (src_of toks))) as [run|]; [|discriminate].
    injection Hcomp as <-. exists run. split; reflexivity.
Qed.

(** For a template of ordinary characters and string or path
    placeholders, all with different names, [compile_path] returns, and
    returns the pattern of [pieces_of]. *)
Lemma compile_path_plain path :
  let toks := finditer 0 path in
  plain_text toks -> std_types toks -> NoDup (param_names toks) ->
  compile_path path = Ok (Re.Frag (pieces_of toks), format_of toks, params_of toks).
Proof.
  intros toks Hp Hs Hnd. unfold compile_path. fold toks.
  destruct (compile_fold_ok toks {| c_regex := []; c_format := ""; c_convertors := [] |})
    as [st Hst].
  { intros n ty Hin. specialize (Hs n ty Hin). unfold std_type in Hs.
    unfold CONVERTOR_TYPES. cbn [Dict.get].
    rewrite (String.eqb_sym "str" ty), (String.eqb_sym "path" ty).
    destruct (ty =? "str"); [discriminate|].
    destruct (ty =? "path"); [discriminate | discriminate]. }
  rewrite Hst. destruct (compile_fold _ _ _ Hst) as (Hr & Hfm & Hc & _).
  simpl in Hr, Hfm, Hc. cbn [bind]. rewrite Hr, Hfm.
  unfold Re.compile. rewrite (parse_plain toks Hp Hs), group_names_src.
  rewrite (NoDup_has_dup _ Hnd). cbn [bind]. rewrite Hc.
  fold (convertors_of toks). rewrite (convertors_of_NoDup _ Hnd). reflexivity.
Qed.

End CompilePath.

(** ** [replace_params] *)

Lemma fold_replace_raise convs l e :
  fold_left (replace_step convs) l (Raise e) = Raise e.
Proof. induction l as [|kv l IH]; simpl; [reflexivity | exact IH]. Qed.

Lemma replace_step_found convs p d k v c t :
  Str.contains (hole k) p = true ->
  Dict.get k convs = Some c ->
  to_string c v = Ok t ->
  replace_step convs (Ok (p, d)) (k, v)
  = Ok (Str.replace p (hole k) t, Dict.pop k d).
Proof.
  intros Hc Hg Ht. unfold replace_step, bind. unfold hole in Hc.
  rewrite Hc, Hg, Ht. reflexivity.
Qed.

Lemma replace_step_raise convs p d k v c e :
  Str.contains (hole k) p = true ->
  Dict.get k convs = Some c ->
  to_string c v = Raise e ->
  replace_step convs (Ok (p, d)) (k, v) = Raise e.
Proof.
  intros Hc Hg Ht. unfold replace_step, bind. unfold hole in Hc.
  rewrite Hc, Hg, Ht. reflexivity.
Qed.

Lemma replace_step_absent convs p d k v :
  Str.contains (hole k) p = false ->
  replace_step convs (Ok (p, d)) (k, v) = Ok (p, d).
Proof.
  intros Hc. unfold replace_step, bind. unfold hole in Hc.
  rewrite Hc. reflexivity.
Qed.

Lemma encode_params_keys convs : forall l texts,
  encode_params convs l = Ok texts -> Dict.keys texts = Dict.keys l.
Proof.
  induction l as [|[k v] l IH]; intros texts H; simpl in H.
  - injection H as <-. reflexivity.
  - destruct (Dict.get k convs) as [c|]; [|discriminate].
    destruct (to_string c v) as [t|]; [|discriminate]. simpl in H.
    destruct (encode_params convs l) as [r|]; [|discriminate]. simpl in H.
    injection H as <-. simpl. rewrite (IH r eq_refl). reflexivity.
Qed.

Lemma encode_params_in convs : forall l texts k t,
  encode_params convs l = Ok texts -> In (k, t) texts ->
  exists v c, In (k, v) l /\ Dict.get k convs = Some c /\ to_string c v = Ok t.
Proof.
  induction l as [|[k0 v0] l IH]; intros texts k t H Hin; simpl in H.
  - injection H as <-. destruct Hin.
  - destruct (Dict.get k0 convs) as [c|] eqn:Hg; [|discriminate].
    destruct (to_string c v0) as [t0|] eqn:Ht; [|discriminate]. simpl in H.
    destruct (encode_params convs l) as [r|]; [|discriminate]. simpl in H.
    injection H as <-. destruct Hin as [Hd | Hin].
    + injection Hd as <- <-. exists v0, c. repeat split; try assumption.
      left. reflexivity.
    + destruct (IH r k t eq_refl Hin) as (v & c' & Hi & Hg' & Ht').
      exists v, c'. repeat split; try assumption. right. exact Hi.
Qed.

(** When every key has its placeholder in the path, the loop encodes
    the parameters in the order of the dict, stops at the first failure,
    and otherwise replaces one placeholder after the other. *)
Lemma replace_params_all convs : forall l p d,
  NoDup (Dict.keys l) ->
  (forall k, In k (Dict.keys l) ->
     nobrace k /\ Str.contains (hole k) p = true /\ Dict.get k convs <> None) ->
  fold_left (replace_step convs) l (Ok (p, d))
  = match encode_params convs l with
    | Ok texts =>
        Ok (substitute_each p texts,
            fold_left (fun d kv => Dict.pop (fst kv) d) l d)
    | Raise e => Raise e
    end.
Proof.
  induction l as [|[k v] l IH]; intros p d Hnd Hall; [reflexivity|].
  simpl in Hnd. inversion Hnd as [|? ? Hk Hnd']; subst.
  destruct (Hall k (or_introl eq_refl)) as (Hbk & Hc & Hg).
  destruct (Dict.get k convs) as [c|] eqn:Hgc; [|contradiction].
  cbn [fold_left encode_params]. rewrite Hgc.
  destruct (to_string c v) as [t|e] eqn:Ht.
  - rewrite (replace_step_found convs p d k v c t Hc Hgc Ht).
    rewrite IH.
    + cbn [bind]. destruct (encode_params convs l); reflexivity.
    + exact Hnd'.
    + intros k' Hk'. destruct (Hall k' (or_intror Hk')) as (Hb' & Hc' & Hg').
      split; [exact Hb'|]. split; [|exact Hg'].
      apply contains_replace; try assumption.
      intros ->. contradiction.
  - rewrite (replace_step_raise convs p d k v c e Hc Hgc Ht).
    apply fold_replace_raise.
Qed.

Lemma in_keys_pop {V} (x k : string) (d : Dict.t V) :
  In x (Dict.keys (Dict.pop k d)) <-> In x (Dict.keys d) /\ x <> k.
Proof.
  induction d as [|[k' v'] d IH]; simpl; [tauto|].
  destruct (String.eqb_spec k' k) as [->|Hne]; simpl; rewrite IH.
  - split; [tauto|]. intros [[<-|H] Hx]; [contradiction | tauto].
  - split; [|tauto]. intros [<-|[H Hx]]; [|tauto].
    split; [left; reflexivity | exact Hne].
Qed.

Lemma in_keys_pop_all {V W} (l : Dict.t W) : forall (d : Dict.t V) x,
  In x (Dict.keys (fold_left (fun d kv => Dict.pop (fst kv) d) l d)) ->
  In x (Dict.keys d) /\ ~ In x (Dict.keys l).
Proof.
  induction l as [|[k v] l IH]; intros d x H; simpl in *; [tauto|].
  apply IH in H. destruct H as [H1 H2]. apply in_keys_pop in H1.
  destruct H1 as [H1 Hx]. split; [exact H1|]. intros [He|Hin]; [|contradiction].
  subst. contradiction.
Qed.

Lemma pop_all_nil {V} (l : Dict.t V) :
  fold_left (fun d kv => Dict.pop (fst kv) d) l l = [].
Proof.
  destruct (fold_left _ l l) as [|[k v] d'] eqn:Hf; [reflexivity|].
  exfalso.
  assert (H : In k (Dict.keys (fold_left (fun d kv => Dict.pop (fst kv) d) l l)))
    by (rewrite Hf; left; reflexivity).
  apply in_keys_pop_all in H. tauto.
Qed.

Lemma subset_spec a b : subset a b = true <-> (forall x, In x a -> In x b).
Proof.
  unfold subset. rewrite forallb_forall. split; intros H x Hx.
  - apply existsb_eqb_In. apply H, Hx.
  - apply existsb_eqb_In. apply H, Hx.
Qed.

Lemma set_eqb_spec a b :
  set_eqb a b = true <-> (forall x, In x a <-> In x b).
Proof.
  unfold set_eqb. rewrite andb_true_iff, !subset_spec. split.
  - intros [H1 H2] x. split; [apply H1 | apply H2].
  - intros H. split; intros x; apply H.
Qed.

Lemma contains_cons p c s :
  Str.contains p s = true -> Str.contains p (String c s) = true.
Proof. intros H. rewrite contains_unfold, H. apply orb_true_r. Qed.

Lemma contains_app_l p x s :
  Str.contains p s = true -> Str.contains p (x ++ s) = true.
Proof.
  intros H. induction x as [|c x IH]; [exact H|]. apply contains_cons, IH.
Qed.

Lemma hole_assoc n s : "{" ++ n ++ "}" ++ s = hole n ++ s.
Proof. unfold hole. simpl. rewrite append_assoc. reflexivity. Qed.

Lemma format_contains toks k :
  In k (param_names toks) ->
  Str.contains (hole k) (format_of toks) = true.
Proof.
  induction toks as [|[c|n ty] ts IH]; intros Hin;
    cbn [param_names In] in Hin; cbn [format_of].
  - destruct Hin.
  - apply contains_cons, IH, Hin.
  - rewrite hole_assoc. destruct Hin as [<- | Hin].
    + apply (contains_app "" (hole n) (format_of ts)).
    + apply (contains_app_l (hole k) (hole n)), IH, Hin.
Qed.

(** ** One replacement after the other against all at once *)

Lemma render_chunks toks : render (map chunk_of toks) = format_of toks.
Proof.
  induction toks as [|[c|n ty] ts IH]; cbn [map chunk_of render format_of].
  - reflexivity.
  - rewrite IH. reflexivity.
  - rewrite IH, hole_assoc. reflexivity.
Qed.

Lemma replace_render k v cs :
  nobrace k ->
  (forall u, In (Text u) cs -> clean u) ->
  (forall n, In (Hole n) cs -> nobrace n) ->
  Str.replace (render cs) (hole k) v = render (map (subst1 k v) cs).
Proof.
  intros Hk. unfold Str.replace.
  induction cs as [|[u|n] cs IH]; intros Ht Hh; cbn [map subst1 render].
  - reflexivity.
  - change (hole k) with (String "{" (k ++ "}")).
    rewrite replace_clean by (apply Ht; left; reflexivity).
    change (String "{" (k ++ "}")) with (hole k).
    rewrite IH; [reflexivity | |];
      intros x Hx; [apply Ht | apply Hh]; right; exact Hx.
  - assert (IH' : Str.replace_aux (hole k) v 0 (render cs)
                  = render (map (subst1 k v) cs)).
    { apply IH; intros x Hx; [apply Ht | apply Hh]; right; exact Hx. }
    destruct (String.eqb_spec n k) as [->|Hne].
    + rewrite replace_hit, IH'. reflexivity.
    + rewrite replace_miss, IH'; [reflexivity | | exact Hk |].
      * intros ->. contradiction.
      * apply Hh. left. reflexivity.
Qed.

Lemma subst1_texts k v cs :
  clean v ->
  (forall u, In (Text u) cs -> clean u) ->
  forall u, In (Text u) (map (subst1 k v) cs) -> clean u.
Proof.
  intros Hv Ht u Hin. apply in_map_iff in Hin.
  destruct Hin as ([u'|n] & He & Hin); simpl in He.
  - injection He as <-. apply Ht, Hin.
  - destruct (n =? k); [injection He as <-; exact Hv | discriminate].
Qed.

Lemma subst1_holes k v cs :
  (forall n, In (Hole n) cs -> nobrace n) ->
  forall n, In (Hole n) (map (subst1 k v) cs) -> nobrace n.
Proof.
  intros Hh n Hin. apply in_map_iff in Hin.
  destruct Hin as ([u'|n'] & He & Hin); simpl in He.
  - discriminate.
  - destruct (n' =? k); [discriminate|]. injection He as <-. apply Hh, Hin.
Qed.

Lemma replace_all_render l : forall cs,
  (forall k, In k (Dict.keys l) -> nobrace k) ->
  (forall k v, In (k, v) l -> clean v) ->
  (forall u, In (Text u) cs -> clean u) ->
  (forall n, In (Hole n) cs -> nobrace n) ->
  substitute_each (render cs) l = render (map (resolve l) cs).
Proof.
  unfold substitute_each.
  induction l as [|[k v] l IH]; intros cs Hk Hv Ht Hh.
  - unfold resolve. cbn [fold_left]. rewrite map_id. reflexivity.
  - cbn [fold_left fst snd]. rewrite replace_render; try assumption.
    + rewrite IH.
      * rewrite map_map. reflexivity.
      * intros k' Hk'. apply Hk. right. exact Hk'.
      * intros k' v' Hin. apply (Hv k' v'). right. exact Hin.
      * apply subst1_texts; [|exact Ht]. apply (Hv k v). left. reflexivity.
      * apply subst1_holes. exact Hh.
    + apply Hk. left. reflexivity.
Qed.

Lemma resolve_text l u : resolve l (Text u) = Text u.
Proof. unfold resolve. induction l as [|[k v] l IH]; simpl; [reflexivity | exact IH]. Qed.

Lemma resolve_hole l : forall n,
  resolve l (Hole n) =
  match Dict.get n l with
  | Some v => Text v
  | None => Hole n
  end.
Proof.
  unfold resolve.
  induction l as [|[k v'] l IH]; intros n; cbn [Dict.get]; [reflexivity|].
  cbn [fold_left fst snd subst1]. rewrite String.eqb_sym.
  destruct (k =? n); [|exact (IH n)].
  apply (resolve_text l v').
Qed.

Lemma render_resolved toks l :
  render (map (resolve l) (map chunk_of toks)) = fill toks l.
Proof.
  induction toks as [|[c|n ty] ts IH]; cbn [map chunk_of render fill].
  - reflexivity.
  - rewrite resolve_text. cbn [render]. rewrite IH. reflexivity.
  - rewrite resolve_hole, IH.
    destruct (Dict.get n l); reflexivity.
Qed.

Lemma chunks_clean toks :
  brace_free toks ->
  forall u, In (Text u) (map chunk_of toks) -> clean u.
Proof.
  intros Hl u Hin. apply in_map_iff in Hin.
  destruct Hin as ([c|n ty] & He & Hin); simpl in He; [|discriminate].
  injection He as <-. apply clean_cons. split; [|reflexivity].
  apply Ascii.eqb_neq. apply Hl, Hin.
Qed.

Lemma chunks_holes toks :
  names_nobrace toks ->
  forall n, In (Hole n) (map chunk_of toks) -> nobrace n.
Proof.
  intros Hnb n Hin. apply in_map_iff in Hin.
  destruct Hin as ([c|n' ty] & He & Hin); simpl in He; [discriminate|].
  injection He as <-. exact (Hnb n' ty Hin).
Qed.

Lemma finditer_names_nobrace s k : names_nobrace (finditer k s).
Proof. intros n ty Hin. exact (finditer_names s k n ty Hin). Qed.

(** Substituting the texts one after the other fills the format as
    substituting them all at once does, as long as neither the literal
    text of the template nor a text brings in an opening brace. *)
Lemma substitute_each_fill toks texts :
  brace_free toks -> names_nobrace toks ->
  (forall k, In k (Dict.keys texts) -> nobrace k) ->
  (forall k t, In (k, t) texts -> clean t) ->
  substitute_each (format_of toks) texts = fill toks texts.
Proof.
  intros Hbf Hnb Hk Hclean.
  rewrite <- render_chunks, replace_all_render.
  - apply render_resolved.
  - exact Hk.
  - exact Hclean.
  - apply chunks_clean, Hbf.
  - apply chunks_holes, Hnb.
Qed.

(** ** [replace_params] with parameters that have no placeholder *)

Lemma hole_nonempty_prefix k : String.prefix (hole k) "" = false.
Proof. reflexivity. Qed.

Lemma contains_clean_skip body (u s : string) :
  clean u ->
  Str.contains (String "{" body) (u ++ s) = Str.contains (String "{" body) s.
Proof.
  induction u as [|c u IH]; intros Hu; [reflexivity|].
  apply clean_cons in Hu. destruct Hu as [Hc Hu].
  change (String c u ++ s) with (String c (u ++ s)).
  rewrite contains_unfold, prefix_cons, Ascii.eqb_sym, Hc. simpl.
  apply IH, Hu.
Qed.

Lemma contains_render k cs :
  nobrace k ->
  (forall u, In (Text u) cs -> clean u) ->
  (forall n, In (Hole n) cs -> nobrace n) ->
  Str.contains (hole k) (render cs) = has_hole k cs.
Proof.
  intros Hk.
  induction cs as [|[u|n] cs IH]; intros Ht Hh; cbn [render has_hole existsb is_hole].
  - reflexivity.
  - change (hole k) with (String "{" (k ++ "}")).
    rewrite contains_clean_skip by (apply Ht; left; reflexivity).
    change (String "{" (k ++ "}")) with (hole k).
    apply IH; intros x Hx; [apply Ht | apply Hh]; right; exact Hx.
  - assert (IH' : Str.contains (hole k) (render cs) = has_hole k cs).
    { apply IH; intros x Hx; [apply Ht | apply Hh]; right; exact Hx. }
    fold (has_hole k cs).
    destruct (String.eqb_spec n k) as [->|Hne].
    + apply (contains_app "" (hole k) (render cs)).
    + rewrite hole_app, contains_unfold.
      change (hole k) with (String "{" (k ++ "}")) in *.
      rewrite prefix_cons.
      destruct (String.prefix (k ++ "}") ((n ++ "}") ++ render cs)) eqn:Hp.
      * exfalso. apply Hne. symmetry.
        apply (prefix_close_eq k n (render cs) Hk); [|exact Hp].
        apply Hh. left. reflexivity.
      * rewrite andb_false_r. cbn [orb].
        rewrite contains_clean_skip
          by (apply nobrace_clean_close, Hh; left; reflexivity).
        exact IH'.
Qed.

Lemma has_hole_subst1 k k' t cs :
  k' <> k -> has_hole k' (map (subst1 k t) cs) = has_hole k' cs.
Proof.
  intros Hne. unfold has_hole.
  induction cs as [|[u|n] cs IH]; cbn [map subst1 existsb is_hole].
  - reflexivity.
  - exact IH.
  - destruct (String.eqb_spec n k) as [->|Hnk]; cbn [is_hole].
    + rewrite IH. apply String.eqb_neq in Hne.
      rewrite String.eqb_sym, Hne. reflexivity.
    + rewrite IH. reflexivity.
Qed.

Lemma has_hole_chunks toks k :
  has_hole k (map chunk_of toks) = has_param toks k.
Proof.
  unfold has_hole, has_param.
  induction toks as [|[c|n ty] ts IH]; cbn [map chunk_of existsb is_hole param_names].
  - reflexivity.
  - exact IH.
  - rewrite IH, String.eqb_sym. reflexivity.
Qed.

Lemma filter_keys_in {V} (f : string -> bool) (l : Dict.t V) k :
  In k (Dict.keys (filter (fun kv => f (fst kv)) l)) ->
  In k (Dict.keys l) /\ f k = true.
Proof.
  unfold Dict.keys. rewrite !in_map_iff.
  intros ([k' v] & <- & Hin). apply filter_In in Hin. destruct Hin as [Hin Hf].
  split; [exists (k', v); split; [reflexivity | exact Hin] | exact Hf].
Qed.

Lemma filter_keys_NoDup {V} (f : string * V -> bool) (l : Dict.t V) :
  NoDup (Dict.keys l) -> NoDup (Dict.keys (filter f l)).
Proof.
  induction l as [|[k v] l IH]; simpl; intros Hnd; [constructor|].
  inversion Hnd as [|? ? Hk Hnd']; subst.
  destruct (f (k, v)); simpl; [|apply IH, Hnd'].
  constructor; [|apply IH, Hnd'].
  intros Hin. apply Hk. unfold Dict.keys in *. apply in_map_iff in Hin.
  destruct Hin as (x & Hx & Hin). apply filter_In in Hin.
  apply in_map_iff. exists x. split; [exact Hx | apply Hin].
Qed.

(** The loop over a path in chunk form: the parameters with a
    placeholder are encoded and substituted, the others passed over. *)
Lemma replace_fold_chunks convs : forall l cs d,
  NoDup (Dict.keys l) ->
  (forall k, In k (Dict.keys l) -> nobrace k) ->
  (forall u, In (Text u) cs -> clean u) ->
  (forall n, In (Hole n) cs -> nobrace n) ->
  (forall k, In k (Dict.keys l) -> has_hole k cs = true ->
     Dict.get k convs <> None) ->
  clean_encodings convs l ->
  fold_left (replace_step convs) l (Ok (render cs, d))
  = match encode_params convs (filter (fun kv => has_hole (fst kv) cs) l) with
    | Raise e => Raise e
    | Ok texts =>
        Ok (render (map (resolve texts) cs),
            fold_left (fun d kv => Dict.pop (fst kv) d)
              (filter (fun kv => has_hole (fst kv) cs) l) d)
    end.
Proof.
  induction l as [|[k v] l IH]; intros cs d Hnd Hk Ht Hh Hg Hcl.
  - cbn. unfold resolve. cbn. rewrite map_id. reflexivity.
  - simpl in Hnd. inversion Hnd as [|? ? Hkl Hnd']; subst.
    assert (Hkb : nobrace k) by (apply Hk; left; reflexivity).
    assert (Hk' : forall k', In k' (Dict.keys l) -> nobrace k')
      by (intros k' Hin; apply Hk; right; exact Hin).
    assert (Hcl' : clean_encodings convs l)
      by (intros k' v' c t Hin; apply (Hcl k' v' c t); right; exact Hin).
    cbn [fold_left filter fst].
    destruct (has_hole k cs) eqn:Hhole.
    + destruct (Dict.get k convs) as [c|] eqn:Hgc;
        [|exfalso; apply (Hg k); [left; reflexivity | exact Hhole | exact Hgc]].
      cbn [encode_params]. rewrite Hgc.
      assert (Hc : Str.contains (hole k) (render cs) = true)
        by (rewrite contains_render; assumption).
      destruct (to_string c v) as [t|e] eqn:Hts.
      * rewrite (replace_step_found convs _ d k v c t Hc Hgc Hts).
        rewrite replace_render by assumption.
        assert (Hct : clean t)
          by (apply (Hcl k v c t); [left; reflexivity | exact Hgc | exact Hts]).
        rewrite IH; try assumption.
        -- assert (Hf : filter (fun kv => has_hole (fst kv) (map (subst1 k t) cs)) l
                         = filter (fun kv => has_hole (fst kv) cs) l).
           { apply filter_ext_in. intros [k' v'] Hin. cbn [fst].
             apply has_hole_subst1. intros ->. apply Hkl.
             unfold Dict.keys. apply in_map_iff. exists (k, v'). split; [reflexivity | exact Hin]. }
           rewrite Hf. cbn [bind].
           destruct (encode_params convs _) as [texts|e]; [|reflexivity].
           rewrite map_map. reflexivity.
        -- apply subst1_texts; assumption.
        -- apply subst1_holes; assumption.
        -- intros k' Hin Hh'. apply Hg; [right; exact Hin|].
           rewrite has_hole_subst1 in Hh'; [exact Hh'|].
           intros ->. contradiction.
      * rewrite (replace_step_raise convs _ d k v c e Hc Hgc Hts).
        apply fold_replace_raise.
    + assert (Hc : Str.contains (hole k) (render cs) = false)
        by (rewrite contains_render; assumption).
      rewrite (replace_step_absent convs _ d k v Hc).
      apply IH; try assumption.
      intros k' Hin. apply Hg. right. exact Hin.
Qed.

Lemma pop_filter {V} (k : string) (d : Dict.t V) :
  Dict.pop k d = filter (fun kv => negb (fst kv =? k)) d.
Proof.
  induction d as [|[k' v'] d IH]; simpl; [reflexivity|].
  destruct (k' =? k); simpl; rewrite IH; reflexivity.
Qed.

Lemma pop_used_leftover {V} (f : string -> bool) : forall (l d : Dict.t V),
  (forall kv, In kv d -> ~ In (fst kv) (Dict.keys l) -> f (fst kv) = false) ->
  fold_left (fun d kv => Dict.pop (fst kv) d)
    (filter (fun kv => f (fst kv)) l) d
  = filter (fun kv => negb (f (fst kv))) d.
Proof.
  induction l as [|[k v] l IH]; intros d Hd.
  - cbn. symmetry. rewrite <- (filter_ext_in (fun _ => true)).
    + clear. induction d as [|x d IH]; simpl; [reflexivity | rewrite IH; reflexivity].
    + intros kv Hin. rewrite (Hd kv Hin); [reflexivity | intros []].
  - cbn [filter fst]. destruct (f k) eqn:Hf.
    + cbn [fold_left fst]. rewrite IH.
      * rewrite pop_filter. clear -Hf.
        induction d as [|[k' v'] d IHd]; simpl; [reflexivity|].
        destruct (String.eqb_spec k' k) as [->|Hne]; simpl.
        -- rewrite Hf. simpl. exact IHd.
        -- rewrite IHd. reflexivity.
      * intros kv Hin Hn. rewrite pop_filter in Hin. apply filter_In in Hin.
        destruct Hin as [Hin Hne]. apply Hd; [exact Hin|].
        intros [He | Hl]; [|contradiction].
        simpl in He. subst k. rewrite String.eqb_refl in Hne. discriminate.
    + apply IH. intros kv Hin Hn.
      destruct (String.eqb_spec (fst kv) k) as [->|Hne]; [exact Hf|].
      apply Hd; [exact Hin|]. intros [He | Hl]; [|contradiction].
      simpl in He. congruence.
Qed.

(** [replace_params] on the format of a template: the parameters that
    have a placeholder are encoded, in the order of the dict, and fill
    the format; the others are what is left. *)
Lemma replace_params_fill toks convs l :
  brace_free toks -> names_nobrace toks ->
  NoDup (Dict.keys l) ->
  (forall k, In k (Dict.keys l) -> nobrace k) ->
  (forall k, In k (Dict.keys l) -> In k (param_names toks) ->
     Dict.get k convs <> None) ->
  clean_encodings convs l ->
  replace_params (format_of toks) convs l
  = match encode_params convs (used_params toks l) with
    | Raise e => Raise e
    | Ok texts => Ok (fill toks texts, leftover_params toks l)
    end.
Proof.
  intros Hbf Hnb Hnd Hk Hg Hcl. unfold replace_params.
  rewrite <- render_chunks.
  rewrite replace_fold_chunks; try assumption.
  - assert (Hf : filter (fun kv => has_hole (fst kv) (map chunk_of toks)) l
                 = used_params toks l).
    { unfold used_params. apply filter_ext. intros kv. apply has_hole_chunks. }
    rewrite Hf. destruct (encode_params convs (used_params toks l)) as [texts|e];
      [|reflexivity].
    rewrite render_resolved. f_equal. f_equal.
    unfold used_params, leftover_params. apply pop_used_leftover.
    intros [k v] Hin Hn. exfalso. apply Hn. unfold Dict.keys.
    apply in_map_iff. exists (k, v). split; [reflexivity | exact Hin].
  - apply chunks_clean, Hbf.
  - apply chunks_holes, Hnb.
  - intros k Hin Hh. rewrite has_hole_chunks in Hh. apply Hg; [exact Hin|].
    apply existsb_eqb_In. exact Hh.
Qed.

(** ** Reverse lookup on a leaf route *)


Lemma leaf_url_path_for_bad self_name fmt convs proto name l :
  bad_keywords l = true ->
  leaf_url_path_for self_name fmt convs proto name l = Raise TypeError.
Proof. intros H. unfold leaf_url_path_for. rewrite H. reflexivity. Qed.

Lemma leaf_url_path_for_no_match self_name fmt convs proto name l :
  bad_keywords l = false ->
  ~ (name = self_name /\
     forall k, In k (Dict.keys l) <-> In k (Dict.keys convs)) ->
  leaf_url_path_for self_name fmt convs proto name l = Raise NoMatchFound.
Proof.
  intros Hb Hn. unfold leaf_url_path_for. rewrite Hb.
  destruct (String.eqb_spec name self_name) as [He|He]; [|reflexivity].
  destruct (set_eqb (Dict.keys l) (Dict.keys convs)) eqn:Hs; [|reflexivity].
  exfalso. apply Hn. split; [exact He | apply set_eqb_spec, Hs].
Qed.

Lemma leaf_url_path_for_found self_name toks convs proto name l :
  names_nobrace toks ->
  bad_keywords l = false ->
  NoDup (Dict.keys l) ->
  name = self_name ->
  (forall k, In k (Dict.keys convs) <-> In k (param_names toks)) ->
  (forall k, In k (Dict.keys l) <-> In k (param_names toks)) ->
  leaf_url_path_for self_name (format_of toks) convs proto name l
  = match encode_params convs l with
    | Raise e => Raise e
    | Ok texts =>
        Ok {| url_path := substitute_each (format_of toks) texts;
              protocol := proto; host := "" |}
    end.
Proof.
  intros Hnb Hb Hnd -> Hconvs Hsame. unfold leaf_url_path_for. rewrite Hb.
  rewrite String.eqb_refl. cbn [negb orb].
  assert (Hs : set_eqb (Dict.keys l) (Dict.keys convs) = true).
  { apply set_eqb_spec. intros k. rewrite Hsame, Hconvs. tauto. }
  rewrite Hs. cbn [negb]. unfold replace_params.
  rewrite replace_params_all.
  - destruct (encode_params convs l) as [texts|e]; [|reflexivity].
    cbn [bind]. rewrite pop_all_nil. reflexivity.
  - exact Hnd.
  - intros k Hk. apply Hsame in Hk. split; [|split].
    + apply param_names_in in Hk. destruct Hk as [ty Hin].
      exact (Hnb k ty Hin).
    + apply format_contains, Hk.
    + apply Hconvs in Hk. destruct (get_in_keys _ _ Hk) as (c & -> & _).
      discriminate.
Qed.

Section LeafReverse.
Context {E : Externals}.

(** What both leaf classes answer, given how [compile_path] made the
    format and the convertors. *)
Lemma leaf_url_path_for_compiled path p fmt convs self_name proto name l :
  compile_path path = Ok (p, fmt, convs) ->
  NoDup (Dict.keys l) ->
  let toks := finditer 0 path in
  let agree :=
    name = self_name /\
    (forall k, In k (Dict.keys l) <-> In k (param_names toks)) in
  (bad_keywords l = true ->
   leaf_url_path_for self_name fmt convs proto name l = Raise TypeError)
  /\
  (bad_keywords l = false -> ~ agree ->
   leaf_url_path_for self_name fmt convs proto name l = Raise NoMatchFound)
  /\
  (bad_keywords l = false -> agree ->
   leaf_url_path_for self_name fmt convs proto name l
   = match encode_params convs l with
     | Raise e => Raise e
     | Ok texts =>
         Ok {| url_path := substitute_each fmt texts;
               protocol := proto; host := "" |}
     end)
  /\
  fmt = format_of toks
  /\
  (forall n ty, In (TParam n ty) toks -> NoDup (param_names toks) ->
     Dict.get n convs = Dict.get ty CONVERTOR_TYPES)
  /\
  (forall texts, agree -> brace_free toks ->
     encode_params convs l = Ok texts ->
     (forall k t, In (k, t) texts -> clean t) ->
     substitute_each fmt texts = fill toks texts).
Proof.
  intros Hc Hnd toks agree. subst agree.
  destruct (compile_path_ok _ _ _ _ Hc) as (Hfmt & Hcv & Hreg & _).
  fold toks in Hfmt, Hcv, Hreg. subst fmt convs.
  split; [|split; [|split; [|split; [|split]]]].
  - apply leaf_url_path_for_bad.
  - intros Hb Hn. apply leaf_url_path_for_no_match; [exact Hb|].
    intros [He Hk]. apply Hn. split; [exact He|].
    intros k. rewrite Hk. apply convertors_of_keys.
  - intros Hb [Hn Hsame]. apply leaf_url_path_for_found; try assumption.
    + apply finditer_names_nobrace.
    + apply convertors_of_keys.
  - reflexivity.
  - intros n ty Hin Hnd'. apply convertors_of_get; try assumption.
    apply (Hreg n ty Hin).
  - intros texts [_ Hsame] Hbf Henc Hclean.
    apply substitute_each_fill; try assumption.
    + apply finditer_names_nobrace.
    + intros k Hk. rewrite (encode_params_keys _ _ _ Henc) in Hk.
      apply Hsame, param_names_in in Hk. destruct Hk as [ty Hin].
      exact (finditer_names path 0 k ty Hin).
Qed.

(** C5 (amended). For a [Route] built by [Route.__init__] and a call
    [url_path_for(name, **path_params)]: a parameter called [self] or
    [name] makes the call raise [TypeError]; otherwise the call raises
    [NoMatchFound] unless [name] is the route's name and the names of the
    supplied parameters are exactly the placeholder names of the template;
    when they agree, the parameters are encoded by their convertors in the
    order supplied, the first failure of an encoder is raised, and without
    a failure the result is the canonical format (the template without its
    type annotations) in which one parameter after the other has replaced
    its placeholder.  Each placeholder has the convertor registered under
    its type.  When neither the literal text of the template nor an
    encoded text has an opening brace, the result is the format with every
    placeholder filled in at once. *)
Theorem Route_url_path_for_exact (path : string) (endpoint : Callable)
  (methods : option (list string)) (name0 : option string) (inc : bool)
  (r : Route) (name : string) (path_params : Dict.t value) :
  Route_init path endpoint methods name0 inc = Ok r ->
  NoDup (Dict.keys path_params) ->
  let toks := finditer 0 path in
  let agree :=
    name = r_name r /\
    (forall k, In k (Dict.keys path_params) <-> In k (param_names toks)) in
  (bad_keywords path_params = true ->
   Route_url_path_for r name path_params = Raise TypeError)
  /\
  (bad_keywords path_params = false -> ~ agree ->
   Route_url_path_for r name path_params = Raise NoMatchFound)
  /\
  (bad_keywords path_params = false -> agree ->
   Route_url_path_for r name path_params
   = match encode_params (r_param_convertors r) path_params with
     | Raise e => Raise e
     | Ok texts =>
         Ok {| url_path := substitute_each (r_path_format r) texts;
               protocol := "http"; host := "" |}
     end)
  /\
  r_path_format r = format_of toks
  /\
  (forall n ty, In (TParam n ty) toks -> NoDup (param_names toks) ->
     Dict.get n (r_param_convertors r) = Dict.get ty CONVERTOR_TYPES)
  /\
  (forall texts, agree -> brace_free toks ->
     encode_params (r_param_convertors r) path_params = Ok texts ->
     (forall k t, In (k, t) texts -> clean t) ->
     substitute_each (r_path_format r) texts = fill toks texts).
Proof.
  intros Hi Hnd.
  destruct (Route_init_fields _ _ _ _ _ _ Hi) as (_ & _ & _ & _ & _ & Hc).
  exact (leaf_url_path_for_compiled path _ _ _ (r_name r) "http" name
           path_params Hc Hnd).
Qed.

End LeafReverse.

(** ** Matching, then reverse lookup *)










Lemma in_dict_keys {V} (k : string) (v : V) (d : Dict.t V) :
  In (k, v) d -> In k (Dict.keys d).
Proof. intros H. apply (in_map fst) in H. exact H. Qed.


Lemma keys_all_captured g : Dict.keys (all_captured g) = Dict.keys g.
Proof.
  unfold all_captured, Dict.keys. rewrite map_map. reflexivity.
Qed.



Section RoundTrip.
Context {E : Externals}.









End RoundTrip.

(** ** Matching, then reverse lookup: the statement *)




Section MatchThenReverse.
Context {E : Externals}.


End MatchThenReverse.

(** ** The pattern of a mount *)


Lemma mount_tokens (u : string) :
  finditer 0 (u ++ "/{path:path}") = (finditer 0 u ++ mount_tail)%list.
Proof. apply (finditer_app_slash u "{path:path}" 0). lia. Qed.









Section MountPattern.
Context {E : Externals}.

Lemma Mount_init_fields template app routes_arg name m :
  Mount_init template app routes_arg name = Ok m ->
  m_path m = Str.rstrip template "/" /\
  m_name m = name /\
  m_app m = match app with
            | Some a => a
            | None => ARouter (Router_init routes_arg true None NoHandler NoHandler)
            end /\
  compile_path (m_path m ++ "/{path:path}")
  = Ok (m_path_regex m, m_path_format m, m_param_convertors m).
Proof.
  unfold Mount_init.
  destruct ((template =? "") || Str.startswith template "/"); [|discriminate].
  destruct (match app, routes_arg with None, None => false | _, _ => true end);
    [|discriminate].
  destruct (compile_path (Str.rstrip template "/" ++ "/{path:path}"))
    as [[[rx fmt] cv]|] eqn:Hc; cbn [bind]; [|discriminate].
  intros H. injection H as <-. cbn. rewrite Hc. repeat split.
Qed.




End MountPattern.

(** ** Slashes: a mount's pattern asks for one more than its prefix has *)









(** ** Literal prefixes *)

Lemma literal_tail t ts : literal_template (t :: ts) -> literal_template ts.
Proof. intros H x Hx. apply H. right. exact Hx. Qed.


Lemma literal_format s :
  literal_template (finditer 0 s) -> format_of (finditer 0 s) = s.
Proof.
  induction s as [|c s IH]; [reflexivity|].
  cbn [finditer]. destruct (param_at (String c s)) as [[[pn pt] len]|].
  - intros H. destruct (H (TParam pn pt) (or_introl eq_refl)) as (x & Hx & _).
    discriminate.
  - intros H. cbn [format_of]. rewrite (IH (literal_tail _ _ H)). reflexivity.
Qed.




Section MountClaims.
Context {E : Externals}.




End MountClaims.

(** ** Reverse lookup through a mount *)

Lemma first_url_found f wrap l1 route l2 name ps url :
  (forall x, In x l1 -> f x name ps = Raise NoMatchFound) ->
  f route name ps = Ok url ->
  first_url f wrap (l1 ++ route :: l2)%list name ps = Ok (wrap url).
Proof.
  intros Hl Hr. induction l1 as [|x l1 IH]; cbn [List.app first_url].
  - rewrite Hr. reflexivity.
  - rewrite (Hl x (or_introl eq_refl)). apply IH.
    intros y Hy. apply Hl. right. exact Hy.
Qed.

Lemma first_url_none f wrap l name ps :
  (forall x, In x l -> f x name ps = Raise NoMatchFound) ->
  first_url f wrap l name ps = Raise NoMatchFound.
Proof.
  intros Hl. induction l as [|x l IH]; cbn [first_url]; [reflexivity|].
  rewrite (Hl x (or_introl eq_refl)). apply IH.
  intros y Hy. apply Hl. right. exact Hy.
Qed.

(** An exception other than [NoMatchFound] leaves the loop. *)
Lemma first_url_raise f wrap l1 route l2 name ps e :
  (forall x, In x l1 -> f x name ps = Raise NoMatchFound) ->
  f route name ps = Raise e ->
  e <> NoMatchFound ->
  first_url f wrap (l1 ++ route :: l2)%list name ps = Raise e.
Proof.
  intros Hl Hr He. induction l1 as [|x l1 IH]; cbn [List.app first_url].
  - rewrite Hr. destruct e; try reflexivity. contradiction.
  - rewrite (Hl x (or_introl eq_refl)). apply IH.
    intros y Hy. apply Hl. right. exact Hy.
Qed.

Lemma append_neq_self (n : string) c s : (n ++ String c s =? n) = false.
Proof.
  apply String.eqb_neq. intros H.
  apply (f_equal String.length) in H. rewrite length_append in H.
  simpl in H. lia.
Qed.

Lemma qualified_name n child :
  (n ++ ":" ++ child =? n) = false /\
  Str.startswith (n ++ ":" ++ child) (n ++ ":") = true /\
  Str.drop (String.length n + 1) (n ++ ":" ++ child) = child.
Proof.
  split; [apply append_neq_self|]. split.
  - unfold Str.startswith. rewrite <- (append_assoc n ":" child).
    apply prefix_app.
  - rewrite <- (append_assoc n ":" child).
    replace (String.length n + 1) with (String.length (n ++ ":"))
      by (rewrite length_append; reflexivity).
    apply drop_app.
Qed.

(** The second branch of [Mount.url_path_for]. *)
Lemma Mount_delegates (m : Mount) n child path_params :
  m_name m = Some n ->
  bad_keywords path_params = false ->
  Mount_url_path_for m (n ++ ":" ++ child) path_params
  = (r <- replace_params (m_path_format m) (m_param_convertors m)
            (Dict.set "path" (VStr "") path_params) ;;
     children_url_path_for (m_app m)
       (fun url => {| url_path := Str.rstrip (fst r) "/" ++ url_path url;
                      protocol := protocol url; host := "" |})
       child
       (match Dict.get "path" path_params with
        | None | Some VNone => snd r
        | Some v => Dict.set "path" v (snd r)
        end)).
Proof.
  intros Hn Hb. unfold Mount_url_path_for, Mount_url_path_for_with.
  rewrite Hb, Hn.
  destruct (qualified_name n child) as (H1 & H2 & H3).
  rewrite H1, H2, H3. cbn [andb].
  destruct (replace_params _ _ _) as [[p rem]|e]; reflexivity.
Qed.

Lemma keys_set_NoDup {V} (k : string) (v : V) (d : Dict.t V) :
  NoDup (Dict.keys d) -> NoDup (Dict.keys (Dict.set k v d)).
Proof.
  induction d as [|[k' v'] d IH]; simpl; intros Hnd.
  - constructor; [intros [] | constructor].
  - inversion Hnd as [|? ? Hk Hnd']; subst.
    destruct (String.eqb_spec k' k) as [->|Hne]; simpl.
    + constructor; assumption.
    + constructor; [|apply IH, Hnd'].
      intros Hin. apply in_keys_set in Hin. destruct Hin as [-> | Hin];
        [congruence | contradiction].
Qed.

Lemma in_set {V} (k k0 : string) (v v0 : V) (d : Dict.t V) :
  In (k, v) (Dict.set k0 v0 d) -> (k = k0 /\ v = v0) \/ In (k, v) d.
Proof.
  induction d as [|[k' v'] d IH]; simpl.
  - intros [H | []]. injection H as <- <-. left. split; reflexivity.
  - destruct (String.eqb_spec k' k0) as [->|Hne]; simpl.
    + intros [H | H]; [injection H as <- <-; left; split; reflexivity|].
      right. right. exact H.
    + intros [H | H]; [right; left; exact H|].
      destruct (IH H) as [Hl | Hr]; [left; exact Hl | right; right; exact Hr].
Qed.

Lemma filter_set_out {V} (f : string -> bool) (k0 : string) (v0 : V) (d : Dict.t V) :
  f k0 = false ->
  filter (fun kv => f (fst kv)) (Dict.set k0 v0 d)
  = filter (fun kv => f (fst kv)) d.
Proof.
  intros Hf. induction d as [|[k' v'] d IH]; simpl.
  - rewrite Hf. reflexivity.
  - destruct (String.eqb_spec k' k0) as [->|Hne]; simpl.
    + rewrite Hf. reflexivity.
    + rewrite IH. reflexivity.
Qed.

Lemma get_filter {V} (f : string -> bool) (k : string) (l : Dict.t V) :
  f k = true ->
  Dict.get k (filter (fun kv => f (fst kv)) l) = Dict.get k l.
Proof.
  intros Hf. induction l as [|[k' v'] l IH]; simpl; [reflexivity|].
  destruct (String.eqb_spec k' k) as [->|Hne].
  - rewrite Hf. simpl. rewrite String.eqb_refl. reflexivity.
  - destruct (f k'); simpl; [|exact IH].
    apply String.eqb_neq in Hne. rewrite Hne. exact IH.
Qed.

Lemma encode_params_get convs : forall l texts k v,
  encode_params convs l = Ok texts ->
  Dict.get k l = Some v ->
  exists c t, Dict.get k convs = Some c /\ to_string c v = Ok t /\
              Dict.get k texts = Some t.
Proof.
  induction l as [|[k0 v0] l IH]; intros texts k v H Hg; simpl in H, Hg.
  - discriminate.
  - destruct (Dict.get k0 convs) as [c|] eqn:Hc; [|discriminate].
    destruct (to_string c v0) as [t0|] eqn:Ht; [|discriminate]. simpl in H.
    destruct (encode_params convs l) as [r|] eqn:Hr; [|discriminate]. simpl in H.
    injection H as <-. simpl.
    destruct (String.eqb_spec k0 k) as [->|Hne].
    + injection Hg as <-. exists c, t0. repeat split; assumption.
    + exact (IH r k v eq_refl Hg).
Qed.

Lemma fill_app a b texts : fill (a ++ b) texts = fill a texts ++ fill b texts.
Proof.
  induction a as [|[c|n ty] a IH]; cbn [List.app fill].
  - reflexivity.
  - rewrite IH. reflexivity.
  - rewrite IH, append_assoc. reflexivity.
Qed.

Lemma fill_literal toks texts :
  literal_template toks -> fill toks texts = format_of toks.
Proof.
  induction toks as [|[c|n ty] ts IH]; intros Hl; cbn [fill format_of].
  - reflexivity.
  - rewrite (IH (literal_tail _ _ Hl)). reflexivity.
  - destruct (Hl (TParam n ty) (or_introl eq_refl)) as (x & Hx & _). discriminate.
Qed.

Lemma rstrip_snoc s c : Str.rstrip (s ++ String c "") c = Str.rstrip s c.
Proof.
  induction s as [|a s IH]; cbn [append Str.rstrip].
  - rewrite Ascii.eqb_refl. reflexivity.
  - rewrite IH. reflexivity.
Qed.

Lemma rstrip_idem s c : Str.rstrip (Str.rstrip s c) c = Str.rstrip s c.
Proof.
  induction s as [|a s IH]; cbn [Str.rstrip]; [reflexivity|].
  destruct (Str.rstrip s c) as [|b r] eqn:Hr.
  - destruct (Ascii.eqb a c) eqn:Ha; cbn [Str.rstrip]; [reflexivity|].
    rewrite Ha. reflexivity.
  - cbn [Str.rstrip]. cbn [Str.rstrip] in IH. rewrite IH. reflexivity.
Qed.

Lemma brace_free_mount toks : brace_free toks -> brace_free (toks ++ mount_tail).
Proof.
  intros H c Hin. apply in_app_or in Hin. destruct Hin as [Hin | Hin].
  - apply H, Hin.
  - destruct Hin as [Hd | [Hd | []]]; [|discriminate].
    injection Hd as <-. discriminate.
Qed.

Lemma has_param_mount toks : has_param (toks ++ mount_tail) "path" = true.
Proof.
  unfold has_param. rewrite param_names_app. apply existsb_eqb_In.
  apply in_or_app. right. left. reflexivity.
Qed.

Section MountReverse.
Context {E : Externals}.

Lemma convertors_of_mount toks :
  convertors_of (toks ++ mount_tail)
  = Dict.set "path" PathConvertor (convertors_of toks).
Proof. unfold convertors_of. rewrite fold_left_app. reflexivity. Qed.

(** The substitution a mount makes into its prefix format: the
    parameters with a placeholder are encoded and fill the format, [path]
    with the empty text; the others are left over. *)
Lemma Mount_prefix_filled template app routes_arg name m path_params :
  Mount_init template app routes_arg name = Ok m ->
  let ptoks := finditer 0 (m_path m) in
  let toks := (ptoks ++ mount_tail)%list in
  let params := Dict.set "path" (VStr "") path_params in
  NoDup (Dict.keys path_params) ->
  (forall k, In k (Dict.keys path_params) -> nobrace k) ->
  brace_free ptoks ->
  clean_encodings (m_param_convertors m) path_params ->
  replace_params (m_path_format m) (m_param_convertors m) params
  = match encode_params (m_param_convertors m) (used_params toks params) with
    | Raise e => Raise e
    | Ok texts =>
        Ok (fill ptoks texts ++ "/", leftover_params toks path_params)
    end.
Proof.
  intros Hi ptoks toks params Hnd Hk Hbf Hcl.
  destruct (Mount_init_fields _ _ _ _ _ Hi) as (_ & _ & _ & Hc).
  destruct (compile_path_ok _ _ _ _ Hc) as (Hfmt & Hcv & _).
  rewrite mount_tokens in Hfmt, Hcv. fold ptoks in Hfmt, Hcv. fold toks in Hfmt, Hcv.
  assert (Hpath : Dict.get "path" (m_param_convertors m) = Some PathConvertor).
  { rewrite Hcv. unfold toks. rewrite convertors_of_mount. apply get_set_same. }
  rewrite Hfmt.
  rewrite (replace_params_fill toks (m_param_convertors m) params).
  - destruct (encode_params (m_param_convertors m) (used_params toks params))
      as [texts|e] eqn:Henc; [|reflexivity].
    f_equal. f_equal.
    + unfold toks at 1. rewrite fill_app. f_equal.
      cbn [mount_tail fill].
      assert (Hg : Dict.get "path" (used_params toks params) = Some (VStr "")).
      { unfold used_params.
        rewrite (get_filter (has_param toks) "path" params (has_param_mount ptoks)).
        apply get_set_same. }
      destruct (encode_params_get _ _ _ _ _ Henc Hg) as (c & t & Hc' & Ht & Hgt).
      rewrite Hpath in Hc'. injection Hc' as <-. cbn in Ht. injection Ht as <-.
      rewrite Hgt. reflexivity.
    + unfold leftover_params, params.
      apply (filter_set_out (fun k => negb (has_param toks k))).
      unfold toks. rewrite has_param_mount. reflexivity.
  - unfold toks. apply brace_free_mount, Hbf.
  - unfold toks, ptoks. rewrite <- mount_tokens. apply finditer_names_nobrace.
  - apply keys_set_NoDup, Hnd.
  - intros k Hin. apply in_keys_set in Hin. destruct Hin as [-> | Hin].
    + split; reflexivity.
    + apply Hk, Hin.
  - intros k _ Hin. rewrite Hcv.
    apply convertors_of_keys in Hin.
    destruct (get_in_keys _ _ Hin) as (c & -> & _). discriminate.
  - intros k v c t Hin Hg Ht. apply in_set in Hin.
    destruct Hin as [[-> ->] | Hin].
    + rewrite Hpath in Hg. injection Hg as <-. cbn in Ht. injection Ht as <-.
      reflexivity.
    + apply (Hcl k v c t Hin Hg Ht).
Qed.

(** C7 (amended). Asked for ["<mount-name>:<child-name>"], a named mount
    substitutes the parameters that have a placeholder in its template,
    each encoded by its convertor, into its prefix format, then asks each
    nested route in registration order for the child name with the
    parameters left over (and [path], when it was given): the answer is the
    filled-in prefix, without trailing slashes, followed by the first path
    a nested route returns, with that route's protocol.  A nested route
    that raises [NoMatchFound] is passed over; any other exception of a
    nested route ends the lookup and is raised; when every nested route
    raises [NoMatchFound], or there is none, so does the mount.  A failure
    of an encoder is raised, and a parameter called [self] or [name] is a
    [TypeError].  (The parameter names and the literal text of the prefix
    are taken to have no brace, and the encoded texts no opening brace.)
    For a literal prefix the filled-in prefix is the prefix itself.  A
    mount named ["api"] at ["/api"] over a route named ["items"] at
    ["/items"] resolves ["api:items"] to ["/api/items"], also through
    [Router.url_path_for]; a mount named ["u"] at ["/users/{id}"] over the
    same route resolves ["u:items"] with [id=3] to ["/users/3/items"]. *)
Theorem Mount_url_path_for_delegated :
  (forall template app routes_arg n m child path_params,
      Mount_init template app routes_arg (Some n) = Ok m ->
      let ptoks := finditer 0 (m_path m) in
      let toks := (ptoks ++ mount_tail)%list in
      let params := Dict.set "path" (VStr "") path_params in
      let leftover :=
        match Dict.get "path" path_params with
        | None | Some VNone => leftover_params toks path_params
        | Some v => Dict.set "path" v (leftover_params toks path_params)
        end in
      let name := n ++ ":" ++ child in
      NoDup (Dict.keys path_params) ->
      (forall k, In k (Dict.keys path_params) -> nobrace k) ->
      brace_free ptoks ->
      clean_encodings (m_param_convertors m) path_params ->
      (bad_keywords path_params = true ->
       url_path_for (AMount m) name path_params = Raise TypeError)
      /\
      (bad_keywords path_params = false ->
       match encode_params (m_param_convertors m) (used_params toks params) with
       | Raise e => url_path_for (AMount m) name path_params = Raise e
       | Ok texts =>
           let prefix := Str.rstrip (fill ptoks texts) "/" in
           (forall l1 route l2 url,
               app_routes (m_app m) = Some (l1 ++ route :: l2)%list ->
               (forall x, In x l1 ->
                          url_path_for x child leftover = Raise NoMatchFound) ->
               url_path_for route child leftover = Ok url ->
               url_path_for (AMount m) name path_params
               = Ok {| url_path := prefix ++ url_path url;
                       protocol := protocol url; host := "" |})
           /\
           (forall l1 route l2 e,
               app_routes (m_app m) = Some (l1 ++ route :: l2)%list ->
               (forall x, In x l1 ->
                          url_path_for x child leftover = Raise NoMatchFound) ->
               url_path_for route child leftover = Raise e ->
               e <> NoMatchFound ->
               url_path_for (AMount m) name path_params = Raise e)
           /\
           ((forall rs x, app_routes (m_app m) = Some rs -> In x rs ->
                          url_path_for x child leftover = Raise NoMatchFound) ->
            url_path_for (AMount m) name path_params = Raise NoMatchFound)
           /\
           (literal_template ptoks -> prefix = m_path m)
       end))
  /\
  (exists r m u,
      Route_init "/items" (fn "items") None None true = Ok r /\
      Mount_init "/api" None (Some [ARoute r]) (Some "api") = Ok m /\
      url_path_for (AMount m) "api:items" []
      = Ok {| url_path := "/api/items"; protocol := "http"; host := "" |} /\
      Router_url_path_for (router_of [AMount m]) "api:items" []
      = Ok {| url_path := "/api/items"; protocol := "http"; host := "" |} /\
      url_path_for (AMount m) "api:other" [] = Raise NoMatchFound /\
      Mount_init "/users/{id}" None (Some [ARoute r]) (Some "u") = Ok u /\
      url_path_for (AMount u) "u:items" [("id", VStr "3")]
      = Ok {| url_path := "/users/3/items"; protocol := "http"; host := "" |}).
Proof.
  split.
  - intros template app routes_arg n m child path_params Hi ptoks toks params
      leftover name Hnd Hk Hbf Hcl.
    destruct (Mount_init_fields _ _ _ _ _ Hi) as (Hmp & Hn & _ & _).
    change (url_path_for (AMount m)) with (Mount_url_path_for m).
    split.
    + intros Hb. unfold Mount_url_path_for, Mount_url_path_for_with.
      rewrite Hb. reflexivity.
    + intros Hb. unfold name.
      rewrite (Mount_delegates m n child path_params Hn Hb).
      rewrite (Mount_prefix_filled _ _ _ _ _ path_params Hi Hnd Hk Hbf Hcl).
      fold ptoks. fold toks. fold params.
      destruct (encode_params (m_param_convertors m) (used_params toks params))
        as [texts|e]; [|reflexivity].
      cbn [bind fst snd]. fold leftover. rewrite rstrip_snoc.
      split; [|split; [|split]].
      * intros l1 route l2 url Hr Hl1 Hu.
        destruct (m_app m) as [rt|c]; [|discriminate].
        cbn [app_routes] in Hr. injection Hr as Hr.
        cbn [children_url_path_for]. rewrite Hr.
        rewrite (first_url_found _ _ l1 route l2 _ _ url Hl1 Hu). reflexivity.
      * intros l1 route l2 e Hr Hl1 Hu He.
        destruct (m_app m) as [rt|c]; [|discriminate].
        cbn [app_routes] in Hr. injection Hr as Hr.
        cbn [children_url_path_for]. rewrite Hr.
        apply (first_url_raise _ _ l1 route l2 _ _ e Hl1 Hu He).
      * intros Hall. destruct (m_app m) as [rt|c]; [|reflexivity].
        cbn [children_url_path_for]. apply first_url_none.
        intros x Hx. apply (Hall (routes rt) x eq_refl Hx).
      * intros Hl. rewrite (fill_literal _ _ Hl).
        unfold ptoks. rewrite (literal_format _ Hl), Hmp. apply rstrip_idem.
  - eexists. eexists. eexists.
    split; [reflexivity|]. split; [reflexivity|].
    split; [reflexivity|]. split; [reflexivity|].
    split; [reflexivity|]. split; reflexivity.
Qed.

End MountReverse.

(** ** The lifespan handshake *)

Section LifespanFacts.
Import LifespanProtocol.
Variable World : Type.
Variable run : Handler -> World -> World * option exn.
Variable format_exc : exn -> string.


Lemma invoke_ran (h : Handler) (s : LifespanProtocol.io World) :
  (if iscoroutinefunction h
   then invoke World run (Awaited h) h
   else invoke World run (Called h) h) s
  = let '(w, r) := run h (world World s) in
    ({| inbox := inbox World s; world := w;
        trace := (trace World s ++ [ran h])%list |},
     match r with None => Return tt | Some x => Throw x end).
Proof.
  unfold ran, invoke, log. destruct (iscoroutinefunction h); cbn;
    destruct (run h (world World s)) as [w [x|]]; reflexivity.
Qed.

Lemma run_handlers_succeed hs : forall (s : LifespanProtocol.io World) w',
  succeed World run hs (world World s) w' ->
  run_handlers World run hs s
  = ({| inbox := inbox World s; world := w';
        trace := (trace World s ++ map ran hs)%list |}, Return tt).
Proof.
  induction hs as [|h hs IH]; intros s w' Hs; inversion Hs; subst.
  - cbn. rewrite app_nil_r. destruct s; reflexivity.
  - cbn [run_handlers]. unfold seq. rewrite invoke_ran.
    match goal with H : run h _ = _ |- _ => rewrite H end.
    rewrite IH with (w' := w') by assumption.
    cbn. rewrite <- app_assoc. reflexivity.
Qed.

Lemma run_handlers_fail pre h post : forall (s : LifespanProtocol.io World) w1 w2 e,
  succeed World run pre (world World s) w1 ->
  run h w1 = (w2, Some e) ->
  run_handlers World run (pre ++ h :: post)%list s
  = ({| inbox := inbox World s; world := w2;
        trace := (trace World s ++ map ran pre ++ [ran h])%list |}, Throw e).
Proof.
  induction pre as [|x pre IH]; intros s w1 w2 e Hs Hr; inversion Hs; subst.
  - cbn [app run_handlers]. unfold seq. rewrite invoke_ran, Hr. reflexivity.
  - cbn [app run_handlers]. unfold seq. rewrite invoke_ran.
    match goal with H : run x _ = _ |- _ => rewrite H end.
    rewrite IH with (w1 := w1) (w2 := w2) (e := e) by assumption.
    cbn. rewrite <- app_assoc. reflexivity.
Qed.

(** C8 (amended). Once the startup message is received, the startup
    handlers run one after the other in registration order.  If one
    fails, the startup-failed message with the formatted failure is sent,
    the failure is raised again, and no later startup handler has run.  If
    all succeed, the startup-complete message is sent and the next message
    is awaited; when it is the shutdown message, the shutdown handlers run
    in registration order and, if all of them succeed, the
    shutdown-complete message is sent.  A shutdown handler that fails
    ends the call with its failure: no later shutdown handler runs and no
    shutdown-complete message is sent. *)
Theorem Lifespan_call_protocol (self : Lifespan)
  (s : LifespanProtocol.io World) rest :
  inbox World s = lifespan_startup :: rest ->
  let started := (trace World s ++ [Received lifespan_startup])%list in
  (forall pre h post w1 w2 e,
      startup_handlers self = (pre ++ h :: post)%list ->
      succeed World run pre (world World s) w1 ->
      run h w1 = (w2, Some e) ->
      Lifespan_call World run format_exc self s
      = ({| inbox := rest; world := w2;
            trace := (started ++ map ran pre
                      ++ [ran h; Sent (lifespan_startup_failed (format_exc e))])%list |},
         Throw e))
  /\
  (forall w1,
      succeed World run (startup_handlers self) (world World s) w1 ->
      let running := (started ++ map ran (startup_handlers self)
                      ++ [Sent lifespan_startup_complete])%list in
      (rest = [] ->
       Lifespan_call World run format_exc self s
       = ({| inbox := []; world := w1; trace := running |}, Pending))
      /\
      (forall rest' w2,
          rest = lifespan_shutdown :: rest' ->
          succeed World run (shutdown_handlers self) w1 w2 ->
          Lifespan_call World run format_exc self s
          = ({| inbox := rest'; world := w2;
                trace := (running ++ [Received lifespan_shutdown]
                          ++ map ran (shutdown_handlers self)
                          ++ [Sent lifespan_shutdown_complete])%list |},
             Return tt))
      /\
      (forall rest' pre h post w2 w3 e,
          rest = lifespan_shutdown :: rest' ->
          shutdown_handlers self = (pre ++ h :: post)%list ->
          succeed World run pre w1 w2 ->
          run h w2 = (w3, Some e) ->
          Lifespan_call World run format_exc self s
          = ({| inbox := rest'; world := w3;
                trace := (running ++ [Received lifespan_shutdown]
                          ++ map ran pre ++ [ran h])%list |},
             Throw e))).
Proof.
  intros Hin started. subst started.
  assert (Hrecv : receive World s
                  = ({| inbox := rest; world := world World s;
                        trace := (trace World s ++ [Received lifespan_startup])%list |},
                     Return lifespan_startup)).
  { unfold receive. rewrite Hin. reflexivity. }
  split.
  - intros pre h post w1 w2 e Hh Hs Hr.
    unfold Lifespan_call, seq. rewrite Hrecv. cbn [is_startup assert_ ret].
    unfold try_except, startup. rewrite Hh.
    rewrite (run_handlers_fail pre h post _ w1 w2 e) by assumption.
    cbn [inbox world trace]. unfold send, throw, log. cbn [inbox world trace].
    rewrite <- !app_assoc. reflexivity.
  - intros w1 Hs running. subst running.
    assert (Hup :
               Lifespan_call World run format_exc self s
               = seq World (receive World)
                   (fun message =>
                      seq World (assert_ World (is_shutdown message))
                        (fun _ => seq World (shutdown World run self)
                                    (fun _ => send World lifespan_shutdown_complete)))
                   {| inbox := rest; world := w1;
                      trace := ((trace World s ++ [Received lifespan_startup])
                                ++ map ran (startup_handlers self)
                                ++ [Sent lifespan_startup_complete])%list |}).
    { unfold Lifespan_call at 1. unfold seq at 1. rewrite Hrecv.
      cbn [is_startup assert_ ret]. unfold seq at 1. cbn [ret].
      unfold seq at 1. unfold try_except, startup.
      rewrite (run_handlers_succeed _ _ w1) by exact Hs.
      unfold seq at 1. unfold send, log. cbn [inbox world trace].
      rewrite <- !app_assoc. reflexivity. }
    split; [|split].
    + intros ->. rewrite Hup. reflexivity.
    + intros rest' w2 -> Hsd. rewrite Hup.
      unfold seq at 1. unfold receive. cbn [inbox world trace is_shutdown assert_ ret].
      unfold seq at 1. cbn [ret]. unfold seq at 1. unfold shutdown.
      rewrite (run_handlers_succeed _ _ w2) by exact Hsd.
      unfold send, log. cbn [inbox world trace].
      rewrite <- !app_assoc. reflexivity.
    + intros rest' pre h post w2 w3 e -> Hh Hsd Hr. rewrite Hup.
      unfold seq at 1. unfold receive. cbn [inbox world trace is_shutdown assert_ ret].
      unfold seq at 1. cbn [ret]. unfold seq at 1. unfold shutdown. rewrite Hh.
      rewrite (run_handlers_fail pre h post _ w2 w3 e) by assumption.
      cbn [inbox world trace]. rewrite <- !app_assoc. reflexivity.
Qed.

End LifespanFacts.
(** * Counterexamples to the statements that were amended *)

(** C2 as stated fails: a websocket request whose toggled path is
    registered is not redirected; the router closes the socket. *)
Lemma websocket_not_redirected :
  redirect_slashes (router_of [AWebSocketRoute ws_route]) = true /\
  is_path_request (websocket "/ws/") = true /\
  matches (AWebSocketRoute ws_route) (websocket "/ws/")
  = Ok (NONE, empty_child) /\
  redirect_path_of "/ws/" = "/ws" /\
  matches (AWebSocketRoute ws_route) (websocket "/ws")
  = Ok (FULL, leaf_child (fn "ws") []) /\
  Router_call (router_of [AWebSocketRoute ws_route]) (websocket "/ws/")
  = Respond WebSocketClose
      (set_router (websocket "/ws/") (router_of [AWebSocketRoute ws_route])) /\
  redirected
    (Router_call (router_of [AWebSocketRoute ws_route]) (websocket "/ws/"))
  = false.
Proof. repeat split. Qed.

(** C3 as stated fails: with [methods=[]] the allowed-methods set is
    declared and the request method is not in it, yet the route answers
    [FULL] and is awaited without a method-not-allowed outcome. *)
Lemma empty_methods_set_is_full :
  Route_init "/x" (fn "x") (Some []) None true = Ok no_methods_route /\
  r_methods no_methods_route = Some [] /\
  set_in "GET" [] = false /\
  Re.match_ (r_path_regex no_methods_route) "/x" = Some [] /\
  Route_matches no_methods_route (http "GET" "/x")
  = Ok (FULL, leaf_child (fn "x") []) /\
  Route_call no_methods_route (http "GET" "/x")
  = Await (request_response (fn "x")) (http "GET" "/x").
Proof. repeat split. Qed.


(** C5 as stated fails.  With the route's name and exactly the
    placeholder names, the call still fails when an encoder refuses the
    value (the string convertor a text with a slash or the empty text, the
    integer convertor a negative number), and the failure is not
    [NoMatchFound]; a placeholder called [name] cannot be supplied at all;
    and the result is not always the format with every placeholder filled
    in: a value that holds a later placeholder is itself substituted into,
    in the order the parameters were given. *)
Lemma Route_url_path_for_beyond_names :
  Route_url_path_for user_route "user" [("id", VStr "a/b")]
  = Raise AssertionError /\
  Route_url_path_for user_route "user" [("id", VStr "")]
  = Raise AssertionError /\
  Route_url_path_for number_route "number" [("id", VInt (-1))]
  = Raise AssertionError /\
  Route_url_path_for named_route "named" [("name", VStr "bob")]
  = Raise TypeError /\
  Route_url_path_for pair_route "pair" [("a", VStr "{b}"); ("b", VStr "x")]
  = Ok {| url_path := "/x/x"; protocol := "http"; host := "" |} /\
  Route_url_path_for pair_route "pair" [("b", VStr "x"); ("a", VStr "{b}")]
  = Ok {| url_path := "/{b}/x"; protocol := "http"; host := "" |}.
Proof. repeat split. Qed.


(** C7 as stated fails: a nested node that raises another exception
    than [NoMatchFound] ends the lookup.  The mount's first nested node is
    a [Lifespan], whose [url_path_for] is the one of [BaseRoute]; the
    route after it would have resolved the name. *)
Lemma nested_lifespan_stops_lookup :
  app_routes (m_app lifespan_mount)
  = Some [ALifespan (Lifespan_init NoHandler NoHandler); ARoute items_route] /\
  url_path_for (ALifespan (Lifespan_init NoHandler NoHandler)) "items" []
  = Raise NotImplementedError /\
  url_path_for (ARoute items_route) "items" []
  = Ok {| url_path := "/items"; protocol := "http"; host := "" |} /\
  url_path_for (AMount lifespan_mount) "api:items" []
  = Raise NotImplementedError.
Proof. repeat split. Qed.

(** C8 as stated fails: startup succeeds and the shutdown message is
    received, but the first shutdown handler fails; the second one never
    runs and no shutdown-complete message is sent. *)
Lemma shutdown_failure_not_completed :
  LifespanProtocol.Lifespan_call nat sample_run sample_format_exc
    {| startup_handlers := [handler 1];
       shutdown_handlers := [handler 0; handler 2] |}
    (fresh_io [LifespanProtocol.lifespan_startup;
               LifespanProtocol.lifespan_shutdown])
  = ({| LifespanProtocol.inbox := [];
        LifespanProtocol.world := 1;
        LifespanProtocol.trace :=
          [LifespanProtocol.Received LifespanProtocol.lifespan_startup;
           LifespanProtocol.Called (handler 1);
           LifespanProtocol.Sent LifespanProtocol.lifespan_startup_complete;
           LifespanProtocol.Received LifespanProtocol.lifespan_shutdown;
           LifespanProtocol.Awaited (handler 0)] |},
     LifespanProtocol.Throw (HandlerError "boom")).
Proof. reflexivity. Qed.


(** * The statements at work on the samples *)


(** C2 at work: a GET on ["/users/3/"] where only a create-only route is
    registered: the toggled path ["/users/3"] is matched at the [PARTIAL]
    level, and the request is redirected to it. *)
Lemma Router_redirect_slashes_witness :
  all_none (http "GET" "/users/3/")
    (routes (router_of [ARoute create_user_route])) /\
  redirect_slashes (router_of [ARoute create_user_route]) = true /\
  redirect_path_of "/users/3/" = "/users/3" /\
  matches (ARoute create_user_route)
    (set_path (set_router (http "GET" "/users/3/")
                 (router_of [ARoute create_user_route])) "/users/3")
  = Ok (PARTIAL, leaf_child (fn "create_user") [("id", VStr "3")]) /\
  Router_call (router_of [ARoute create_user_route]) (http "GET" "/users/3/")
  = Respond
      (RedirectResponse
         (set_path
            (set_router (http "GET" "/users/3/")
               (router_of [ARoute create_user_route]))
            "/users/3"))
      (set_router (http "GET" "/users/3/")
         (router_of [ARoute create_user_route])).
Proof.
  assert (Hn : all_none (http "GET" "/users/3/")
                 (routes (router_of [ARoute create_user_route])))
    by only_route.
  split; [exact Hn|]. repeat (split; [reflexivity|]).
  apply (proj1 (proj1 (Router_redirect_slashes
                         (router_of [ARoute create_user_route])
                         (http "GET" "/users/3/") Hn eq_refl) eq_refl)
           ltac:(discriminate)
           [] (ARoute create_user_route) [] PARTIAL
           (leaf_child (fn "create_user") [("id", VStr "3")])).
  - reflexivity.
  - intros x [].
  - reflexivity.
  - discriminate.
Defined.

(** C3 at work: a GET on the create-only route. *)
Lemma Route_method_mismatch_witness :
  type (http "GET" "/users/3") = "http" /\
  Re.match_ (r_path_regex create_user_route) "/users/3"
  = Some [("id", Some "3")] /\
  r_methods create_user_route = Some ["POST"] /\
  ["POST"] <> [] /\
  set_in "GET" ["POST"] = false /\
  Route_matches create_user_route (http "GET" "/users/3")
  = Ok (PARTIAL, leaf_child (fn "create_user") [("id", VStr "3")]) /\
  method_not_allowed (http "GET" "/users/3")
    (Router_call (router_of [ARoute create_user_route]) (http "GET" "/users/3")).
Proof.
  assert (Hne : ["POST"] <> []) by discriminate.
  pose proof (proj1 (Route_method_mismatch create_user_route)
                (http "GET" "/users/3") ["POST"] [("id", Some "3")]
                [("id", VStr "3")] eq_refl eq_refl eq_refl eq_refl Hne eq_refl)
    as (Hm & _ & Hr).
  repeat (split; [reflexivity|]). split; [exact Hne|]. split; [reflexivity|].
  split.
  - rewrite Hm. reflexivity.
  - apply Hr; [left; reflexivity | only_route].
Defined.


(** C5 at work, on the user route: its own name with [id]; one
    parameter too many; a value the string convertor refuses. *)
Lemma Route_url_path_for_exact_witness :
  Route_init "/users/{id}" (fn "user") None None true = Ok user_route /\
  NoDup (Dict.keys [("id", VStr "7")]) /\
  Route_url_path_for user_route "user" [("id", VStr "7")]
  = Ok {| url_path := "/users/7"; protocol := "http"; host := "" |} /\
  Route_url_path_for user_route "user" [("id", VStr "7"); ("page", VStr "2")]
  = Raise NoMatchFound /\
  Route_url_path_for user_route "user" [("id", VStr "a/b")]
  = Raise AssertionError.
Proof.
  assert (Hnd : forall v, NoDup (Dict.keys [("id", VStr v)]))
    by (intros v; repeat constructor; intros []).
  assert (Hnd2 : NoDup (Dict.keys [("id", VStr "7"); ("page", VStr "2")])).
  { repeat constructor; [intros [H | []]; discriminate | intros []]. }
  assert (Hagree : forall v,
             "user" = r_name user_route /\
             (forall k, In k (Dict.keys [("id", VStr v)])
                        <-> In k (param_names (finditer 0 "/users/{id}")))).
  { intros v. split; [reflexivity|]. intros k. vm_compute. tauto. }
  split; [reflexivity|]. split; [exact (Hnd "7")|]. split; [|split].
  - rewrite (proj1 (proj2 (proj2 (Route_url_path_for_exact "/users/{id}"
               (fn "user") None None true user_route "user"
               [("id", VStr "7")] eq_refl (Hnd "7")))) eq_refl (Hagree "7")).
    reflexivity.
  - apply (proj1 (proj2 (Route_url_path_for_exact "/users/{id}" (fn "user") None
                           None true user_route "user"
                           [("id", VStr "7"); ("page", VStr "2")] eq_refl Hnd2))
             eq_refl).
    intros [_ H]. specialize (H "page"). vm_compute in H.
    destruct H as [H _]. destruct H as [H | []]; [|discriminate].
    right. left. reflexivity.
  - rewrite (proj1 (proj2 (proj2 (Route_url_path_for_exact "/users/{id}"
               (fn "user") None None true user_route "user"
               [("id", VStr "a/b")] eq_refl (Hnd "a/b")))) eq_refl
               (Hagree "a/b")).
    reflexivity.
Defined.



(** C7 at work: ["u:items"] with [id=3] through the mount at
    ["/users/{id}"]. *)
Lemma Mount_url_path_for_delegated_witness :
  Mount_init "/users/{id}" None (Some [ARoute items_route]) (Some "u")
  = Ok user_mount /\
  NoDup (Dict.keys [("id", VStr "3")]) /\
  url_path_for (ARoute items_route) "items" []
  = Ok {| url_path := "/items"; protocol := "http"; host := "" |} /\
  url_path_for (AMount user_mount) "u:items" [("id", VStr "3")]
  = Ok {| url_path := "/users/3/items"; protocol := "http"; host := "" |}.
Proof.
  assert (Hnd : NoDup (Dict.keys [("id", VStr "3")]))
    by (repeat constructor; intros []).
  split; [reflexivity|]. split; [exact Hnd|]. split; [reflexivity|].
  assert (Hk : forall k, In k (Dict.keys [("id", VStr "3")]) -> nobrace k).
  { intros k [<- | []]. split; reflexivity. }
  assert (Hbf : brace_free (finditer 0 (m_path user_mount))) by each_token.
  assert (Hcl : clean_encodings (m_param_convertors user_mount)
                  [("id", VStr "3")]).
  { intros k v c t [H | []] Hg Ht. injection H as <- <-.
    vm_compute in Hg. injection Hg as <-. vm_compute in Ht.
    injection Ht as <-. reflexivity. }
  pose proof (proj2 (proj1 Mount_url_path_for_delegated
                       "/users/{id}" None (Some [ARoute items_route]) "u"
                       user_mount "items" [("id", VStr "3")] eq_refl
                       Hnd Hk Hbf Hcl) eq_refl) as H.
  cbv zeta in H.
  change (encode_params (m_param_convertors user_mount)
            (used_params (finditer 0 (m_path user_mount) ++ mount_tail)
               (Dict.set "path" (VStr "") [("id", VStr "3")])))
    with (Ok [("id", "3"); ("path", "")] : result (Dict.t string)) in H.
  cbv beta iota in H.
  apply (proj1 H [] (ARoute items_route) []
           {| url_path := "/items"; protocol := "http"; host := "" |}).
  - reflexivity.
  - intros x [].
  - reflexivity.
Defined.

(** C9 at work: a function endpoint and a class endpoint, each without
    [methods], on templates with an integer placeholder. *)
Lemma Route_default_methods_witness :
  Route_init "/users/{id:int}" (fn "number") None None true = Ok number_route /\
  r_methods number_route = Some ["GET"; "HEAD"] /\
  r_methods class_route = None /\
  Route_matches class_route (http "DELETE" "/items/12")
  = Ok (FULL,
        leaf_child {| kind := KClass; name__ := "App"; class_name__ := "type" |}
          [("id", VInt 12)]).
Proof.
  assert (Hn : Route_init "/users/{id:int}" (fn "number") None None true
               = Ok number_route) by reflexivity.
  assert (Hc : Route_init "/items/{id:int}"
                 {| kind := KClass; name__ := "App"; class_name__ := "type" |}
                 None None true
               = Ok class_route) by reflexivity.
  split; [exact Hn|]. split; [|split; [|reflexivity]].
  - apply (proj1 (Route_default_methods "/users/{id:int}" (fn "number") None
                    true number_route Hn)).
    reflexivity.
  - apply (proj2 (Route_default_methods "/items/{id:int}"
                    {| kind := KClass; name__ := "App"; class_name__ := "type" |}
                    None true class_route Hc)).
    reflexivity.
Defined.

(** C8 at work: the second of three startup handlers fails. *)
Lemma Lifespan_call_protocol_witness :
  LifespanProtocol.inbox nat (fresh_io [LifespanProtocol.lifespan_startup])
  = [LifespanProtocol.lifespan_startup] /\
  LifespanProtocol.succeed nat sample_run [handler 1] 0 1 /\
  sample_run (handler 0) 1 = (1, Some (HandlerError "boom")) /\
  LifespanProtocol.Lifespan_call nat sample_run sample_format_exc
    {| startup_handlers := [handler 1; handler 0; handler 2];
       shutdown_handlers := [] |}
    (fresh_io [LifespanProtocol.lifespan_startup])
  = ({| LifespanProtocol.inbox := [];
        LifespanProtocol.world := 1;
        LifespanProtocol.trace :=
          [LifespanProtocol.Received LifespanProtocol.lifespan_startup;
           LifespanProtocol.Called (handler 1);
           LifespanProtocol.Awaited (handler 0);
           LifespanProtocol.Sent
             (LifespanProtocol.lifespan_startup_failed "boom")] |},
     LifespanProtocol.Throw (HandlerError "boom")).
Proof.
  assert (Hs : LifespanProtocol.succeed nat sample_run [handler 1] 0 1).
  { apply (LifespanProtocol.succeed_cons nat sample_run (handler 1) [] 0 1 1);
      [reflexivity | constructor]. }
  split; [reflexivity|]. split; [exact Hs|]. split; [reflexivity|].
  apply (proj1 (Lifespan_call_protocol nat sample_run sample_format_exc
                  {| startup_handlers := [handler 1; handler 0; handler 2];
                     shutdown_handlers := [] |}
                  (fresh_io [LifespanProtocol.lifespan_startup]) [] eq_refl)
           [handler 1] (handler 0) [handler 2] 1 1 (HandlerError "boom")
           eq_refl Hs eq_refl).
Defined.

